(** * Sokoban solver: [game_state.py] and [modules/solver.py]

    A shallow embedding of the two Python modules.  Python objects live in
    a store and are handled through references, so that object identity
    (which is what the [visited] set of the solver compares) and partly
    initialised objects (what [__init__] works on) are both visible.
    Attribute reads on an attribute that has not been assigned yet raise
    [AttributeError], list indexing follows Python (negative indices count
    from the end, anything else out of range raises [IndexError]). *)

From Stdlib Require Import ZArith List String Ascii Bool Lia.
From stdpp Require Import base option list gmap strings.

Local Open Scope Z_scope.

(** ** Python runtime fragments *)

Inductive exn : Type :=
  | AttributeError   (* attribute read before it was assigned *)
  | IndexError       (* list index out of range *)
  | TypeError        (* unpacking None, ordering two GameState objects *)
  | ValueError       (* raise ValueError('Invalid direction') *)
  | OverflowError    (* an int too large to convert to float *)
  | Exception.       (* raise Exception('Invalid strategy') *)

Inductive result (A : Type) : Type :=
  | Ok (a : A)
  | Raise (e : exn).
Arguments Ok {A} a.
Arguments Raise {A} e.

#[global] Instance result_ret : MRet result := λ A a, Ok a.
#[global] Instance result_bind : MBind result := λ A B f m,
  match m with Ok a => f a | Raise e => Raise e end.

(** Numbers the program computes with: Python ints, and the float
    [math.inf] that [manhattan_distance] starts from. *)
Inductive pynum : Type :=
  | Int (z : Z)
  | Inf.

(** The ints that convert to a float.  The conversion rounds to the
    nearest float and raises [OverflowError] when that reaches 2^1024: from
    2^1024 - 2^970 on, in either sign. *)
Definition fits_float (z : Z) : bool := Z.abs z <? 2 ^ 1024 - 2 ^ 970.

(** [a + b].  Two ints add exactly; an int added to [math.inf] is first
    converted to a float. *)
Definition pynum_add (a b : pynum) : result pynum :=
  match a, b with
  | Int x, Int y => Ok (Int (x + y))
  | Int x, Inf | Inf, Int x => if fits_float x then Ok Inf else Raise OverflowError
  | Inf, Inf => Ok Inf
  end.

Definition pynum_eqb (a b : pynum) : bool :=
  match a, b with
  | Int x, Int y => x =? y
  | Inf, Inf => true
  | _, _ => false
  end.

Definition pynum_ltb (a b : pynum) : bool :=
  match a, b with
  | Int x, Int y => x <? y
  | Int _, Inf => true
  | Inf, _ => false
  end.

(** [min(a, b)] returns [a] unless [b < a]. *)
Definition pynum_min (a b : pynum) : pynum :=
  if pynum_ltb b a then b else a.

(** [l[i]] and [l[i] = x] on a Python list. *)
Definition norm_index (len : nat) (i : Z) : option nat :=
  if (0 <=? i) && (i <? Z.of_nat len) then Some (Z.to_nat i)
  else if (- Z.of_nat len <=? i) && (i <? 0) then Some (Z.to_nat (Z.of_nat len + i))
  else None.

Definition getitem {A} (l : list A) (i : Z) : result A :=
  match norm_index (length l) i ≫= (l !!.) with
  | Some x => Ok x
  | None => Raise IndexError
  end.

Definition setitem {A} (l : list A) (i : Z) (x : A) : result (list A) :=
  match norm_index (length l) i with
  | Some n => Ok (<[n:=x]> l)
  | None => Raise IndexError
  end.

(** [range(n)] *)
Definition range (n : Z) : list Z := seqZ 0 n.

(** ** The object store *)

Abbreviation pos := (Z * Z)%type (only parsing).
Abbreviation grid := (list (list ascii)) (only parsing).
Abbreviation path := (list string) (only parsing).

(** The instance dictionary of a [GameState] object; [None] is an
    attribute that has not been assigned. *)
Record instance : Type := Attrs {
  self_map : option grid;
  self_player : option (option pos);
  self_boxes : option (list pos);
  self_targets : option (list pos);
  self_is_solved : option bool;
  self_current_cost : option Z;
  self_height : option Z;
  self_width : option Z
}.

Definition blank : instance :=
  Attrs None None None None None None None None.

Definition set_map (v : grid) (o : instance) : instance :=
  Attrs (Some v) (self_player o) (self_boxes o) (self_targets o)
    (self_is_solved o) (self_current_cost o) (self_height o) (self_width o).
Definition set_player (v : option pos) (o : instance) : instance :=
  Attrs (self_map o) (Some v) (self_boxes o) (self_targets o)
    (self_is_solved o) (self_current_cost o) (self_height o) (self_width o).
Definition set_boxes (v : list pos) (o : instance) : instance :=
  Attrs (self_map o) (self_player o) (Some v) (self_targets o)
    (self_is_solved o) (self_current_cost o) (self_height o) (self_width o).
Definition set_targets (v : list pos) (o : instance) : instance :=
  Attrs (self_map o) (self_player o) (self_boxes o) (Some v)
    (self_is_solved o) (self_current_cost o) (self_height o) (self_width o).
Definition set_is_solved (v : bool) (o : instance) : instance :=
  Attrs (self_map o) (self_player o) (self_boxes o) (self_targets o)
    (Some v) (self_current_cost o) (self_height o) (self_width o).
Definition set_current_cost (v : Z) (o : instance) : instance :=
  Attrs (self_map o) (self_player o) (self_boxes o) (self_targets o)
    (self_is_solved o) (Some v) (self_height o) (self_width o).
Definition set_height (v : Z) (o : instance) : instance :=
  Attrs (self_map o) (self_player o) (self_boxes o) (self_targets o)
    (self_is_solved o) (self_current_cost o) (Some v) (self_width o).
Definition set_width (v : Z) (o : instance) : instance :=
  Attrs (self_map o) (self_player o) (self_boxes o) (self_targets o)
    (self_is_solved o) (self_current_cost o) (self_height o) (Some v).

(** A reference is the index of the object in the store; two references
    denote the same object exactly when they are equal. *)
Abbreviation ref := nat (only parsing).
Abbreviation store := (list instance) (only parsing).

(** Computations that read and extend the store and may raise.  The store
    is returned on both outcomes: an object allocated before the exception
    stays allocated. *)
Definition M (A : Type) : Type := store → result A * store.

#[global] Instance M_ret : MRet M := λ A a h, (Ok a, h).
#[global] Instance M_bind : MBind M := λ A B f m h,
  match m h with
  | (Ok a, h') => f a h'
  | (Raise e, h') => (Raise e, h')
  end.

Definition raise {A} (e : exn) : M A := λ h, (Raise e, h).

Definition lift {A} (r : result A) : M A := λ h, (r, h).

(** [object.__new__]: a fresh object with an empty instance dictionary. *)
Definition alloc : M ref := λ h, (Ok (length h), h ++ [blank]).

(** [self.attr]; a reference outside the store has no attributes. *)
Definition getattr {A} (attr : instance → option A) (self : ref) : M A := λ h,
  match h !! self ≫= attr with
  | Some v => (Ok v, h)
  | None => (Raise AttributeError, h)
  end.

(** [self.attr = v] *)
Definition setattr (upd : instance → instance) (self : ref) : M unit := λ h,
  (Ok tt, alter upd self h).

(** [for x in xs: ... return ...]: the first iteration that returns ends
    the loop. *)
Fixpoint for_return {A B} (xs : list A) (body : A → M (option B)) : M (option B) :=
  match xs with
  | [] => mret None
  | x :: xs' =>
      r ← body x;
      match r with
      | Some b => mret (Some b)
      | None => for_return xs' body
      end
  end.

(** [for x in xs: acc = body(acc, x)] *)
Fixpoint for_acc {A S} (xs : list A) (acc : S) (body : S → A → M S) : M S :=
  match xs with
  | [] => mret acc
  | x :: xs' => acc' ← body acc x; for_acc xs' acc' body
  end.

(** ** game_state.py *)

Module GameState.

(** [self.map[i][j]] *)
Definition cell (map : grid) (position : pos) : result ascii :=
  row ← getitem map position.1; getitem row position.2.

(** [new_map[i][j] = c] *)
Definition set_cell (map : grid) (position : pos) (c : ascii) : result grid :=
  row ← getitem map position.1;
  row' ← setitem row position.2 c;
  setitem map position.1 row'.

Definition read_cell (self : ref) (position : pos) : M ascii :=
  map ← getattr self_map self; lift (cell map position).

Definition find_player (self : ref) : M (option pos) :=
  height ← getattr self_height self;
  for_return (range height) (λ i,
    width ← getattr self_width self;
    for_return (range width) (λ j,
      c ← read_cell self (i, j);
      mret (if Ascii.eqb c "@" || Ascii.eqb c "+" then Some (i, j) else None))).

Definition find_boxes (self : ref) : M (list pos) :=
  height ← getattr self_height self;
  for_acc (range height) [] (λ boxes i,
    width ← getattr self_width self;
    for_acc (range width) boxes (λ boxes j,
      c ← read_cell self (i, j);
      mret (if Ascii.eqb c "$" || Ascii.eqb c "*" then boxes ++ [(i, j)] else boxes))).

Definition find_targets (self : ref) : M (list pos) :=
  height ← getattr self_height self;
  for_acc (range height) [] (λ targets i,
    width ← getattr self_width self;
    for_acc (range width) targets (λ targets j,
      c ← read_cell self (i, j);
      mret (if Ascii.eqb c "." || Ascii.eqb c "*" then targets ++ [(i, j)] else targets))).

Definition is_wall (self : ref) (position : pos) : M bool :=
  c ← read_cell self position; mret (Ascii.eqb c "#").

Definition is_box (self : ref) (position : pos) : M bool :=
  c ← read_cell self position; mret (Ascii.eqb c "$" || Ascii.eqb c "*").

Definition is_target (self : ref) (position : pos) : M bool :=
  c ← read_cell self position; mret (Ascii.eqb c "." || Ascii.eqb c "*").

Definition is_empty (self : ref) (position : pos) : M bool :=
  c ← read_cell self position; mret (Ascii.eqb c " ").

Definition pos_eqb (p q : pos) : bool := (p.1 =? q.1) && (p.2 =? q.2).

Definition manhattan_distance (box_position : pos) (target_positions : list pos) : pynum :=
  fold_left (λ min_distance target_position,
      let distance := Z.abs (box_position.1 - target_position.1)
                      + Z.abs (box_position.2 - target_position.2) in
      pynum_min min_distance (Int distance))
    target_positions Inf.

Definition get_heuristic (self : ref) : M pynum :=
  boxes ← getattr self_boxes self;
  for_acc boxes (Int 0) (λ heuristic box_position,
    targets ← getattr self_targets self;
    lift (pynum_add heuristic (manhattan_distance box_position targets))).

Definition get_current_cost (self : ref) : M Z :=
  getattr self_current_cost self.

Definition get_total_cost (self : ref) : M pynum :=
  c ← get_current_cost self;
  h ← get_heuristic self;
  lift (pynum_add (Int c) h).

(** [all(box in self.targets for box in self.boxes)] *)
Definition check_solved (self : ref) : M bool :=
  boxes ← getattr self_boxes self;
  for_acc boxes true (λ ok box,
    if ok then
      targets ← getattr self_targets self;
      mret (existsb (pos_eqb box) targets)
    else mret false).

(** [__init__], in the order of its statements. *)
Definition __init__ (self : ref) (map : grid) (current_cost : Z) : M unit :=
  _ ← setattr (set_map map) self;
  player ← find_player self;
  _ ← setattr (set_player player) self;
  boxes ← find_boxes self;
  _ ← setattr (set_boxes boxes) self;
  targets ← find_targets self;
  _ ← setattr (set_targets targets) self;
  is_solved ← check_solved self;
  _ ← setattr (set_is_solved is_solved) self;
  _ ← setattr (set_current_cost current_cost) self;
  m ← getattr self_map self;
  _ ← setattr (set_height (Z.of_nat (length m))) self;
  m ← getattr self_map self;
  row0 ← lift (getitem m 0);
  setattr (set_width (Z.of_nat (length row0))) self.

(** The call [GameState(map, current_cost)]. *)
Definition new (map : grid) (current_cost : Z) : M ref :=
  self ← alloc;
  _ ← __init__ self map current_cost;
  mret self.

(** The [if]/[elif] chain on [direction] of [move]. *)
Definition new_position_of (direction : string) (i j : Z) : M pos :=
  if String.eqb direction "U" then mret (i - 1, j)
  else if String.eqb direction "D" then mret (i + 1, j)
  else if String.eqb direction "L" then mret (i, j - 1)
  else if String.eqb direction "R" then mret (i, j + 1)
  else raise ValueError.

(** The statements shared by both branches that build a successor:
    the player leaves [(i, j)] and enters [new_position]. *)
Definition walk_map (map : grid) (i j : Z) (new_position : pos) : result grid :=
  let new_map := map in
  new_map ← set_cell new_map (i, j) " ";
  c ← cell map (i, j);
  new_map ← (if Ascii.eqb c "+" then set_cell new_map (i, j) "." else Ok new_map);
  new_map ← set_cell new_map new_position "@";
  c ← cell map new_position;
  if Ascii.eqb c "." then set_cell new_map new_position "+" else Ok new_map.

(** The push branch continues with the two statements that place the
    box. *)
Definition push_map (map : grid) (i j : Z) (new_position new_box_position : pos)
    : result grid :=
  new_map ← walk_map map i j new_position;
  new_map ← set_cell new_map new_box_position "$";
  c ← cell map new_box_position;
  if Ascii.eqb c "." then set_cell new_map new_box_position "*" else Ok new_map.

(** [i, j = self.player]: unpacking [None] raises [TypeError]. *)
Definition unpack (player : option pos) : M pos :=
  match player with
  | Some p => mret p
  | None => raise TypeError
  end.

(** [not self.is_wall(p) and not self.is_box(p)]: [and] does not look at
    its second operand when the first is false. *)
Definition not_wall_and_not_box (self : ref) (position : pos) : M bool :=
  wall ← is_wall self position;
  if negb (wall : bool) then box ← is_box self position; mret (negb box)
  else mret false.

Definition move (self : ref) (direction : string) : M ref :=
  player ← getattr self_player self;
  ij ← unpack player;
  let i := ij.1 in
  let j := ij.2 in
  new_position ← new_position_of direction i j;
  wall ← is_wall self new_position;
  if negb (wall : bool) then
    box ← is_box self new_position;
    if (box : bool) then
      let new_box_position :=
        (new_position.1 + (new_position.1 - i), new_position.2 + (new_position.2 - j)) in
      free ← not_wall_and_not_box self new_box_position;
      if (free : bool) then
        map ← getattr self_map self;
        new_map ← lift (push_map map i j new_position new_box_position);
        cost ← getattr self_current_cost self;
        new new_map (cost + 1)
      else mret self
    else
      map ← getattr self_map self;
      new_map ← lift (walk_map map i j new_position);
      cost ← getattr self_current_cost self;
      new new_map (cost + 1)
  else mret self.

(** [move] with the class that it instantiates as a parameter: the two
    calls [GameState(new_map, self.current_cost + 1)] go to [construct].
    [move] is [move_by new]. *)
Definition move_by (construct : grid → Z → M ref) (self : ref) (direction : string)
    : M ref :=
  player ← getattr self_player self;
  ij ← unpack player;
  let i := ij.1 in
  let j := ij.2 in
  new_position ← new_position_of direction i j;
  wall ← is_wall self new_position;
  if negb (wall : bool) then
    box ← is_box self new_position;
    if (box : bool) then
      let new_box_position :=
        (new_position.1 + (new_position.1 - i), new_position.2 + (new_position.2 - j)) in
      free ← not_wall_and_not_box self new_box_position;
      if (free : bool) then
        map ← getattr self_map self;
        new_map ← lift (push_map map i j new_position new_box_position);
        cost ← getattr self_current_cost self;
        construct new_map (cost + 1)
      else mret self
    else
      map ← getattr self_map self;
      new_map ← lift (walk_map map i j new_position);
      cost ← getattr self_current_cost self;
      construct new_map (cost + 1)
  else mret self.

End GameState.

(** ** The frontier classes of [queue]: [Queue], [LifoQueue], [PriorityQueue] *)

(** The tuples the solver puts on a frontier: [(state, path)] for [bfs] and
    [dfs], [(key, state, path)] for the priority-queue strategies. *)
Inductive item : Type :=
  | Plain (state : ref) (p : path)
  | Keyed (key : pynum) (state : ref) (p : path).

Definition item_state (it : item) : ref :=
  match it with Plain s _ | Keyed _ s _ => s end.

Definition item_path (it : item) : path :=
  match it with Plain _ p | Keyed _ _ p => p end.

(** [GameState] defines neither [__eq__] nor [__hash__]: [==], [in] on a
    set and the equality step of tuple comparison all fall back on object
    identity. *)
Definition state_eqb (a b : ref) : bool := Nat.eqb a b.

(** [p < q] on two lists of strings. *)
Fixpoint path_ltb (p q : path) : bool :=
  match p, q with
  | [], [] => false
  | [], _ :: _ => true
  | _ :: _, [] => false
  | x :: p', y :: q' => if String.eqb x y then path_ltb p' q' else String.ltb x y
  end.

(** [a < b] on two frontier tuples: the first components that differ
    decide.  [GameState] has no [__lt__], so ordering two distinct states
    raises [TypeError], and so does ordering a number against a state. *)
Definition states_then_paths_lt (s1 : ref) (p1 : path) (s2 : ref) (p2 : path)
    : result bool :=
  if state_eqb s1 s2 then Ok (path_ltb p1 p2) else Raise TypeError.

Definition item_lt (a b : item) : result bool :=
  match a, b with
  | Keyed k1 s1 p1, Keyed k2 s2 p2 =>
      if pynum_eqb k1 k2 then states_then_paths_lt s1 p1 s2 p2
      else Ok (pynum_ltb k1 k2)
  | Plain s1 p1, Plain s2 p2 => states_then_paths_lt s1 p1 s2 p2
  | _, _ => Raise TypeError
  end.

Module heapq.

(** The [while pos > startpos] loop of [_siftdown]; [pos] at least halves
    on every round, so [fuel = pos] rounds are enough. *)
Fixpoint siftdown_loop (fuel : nat) (heap : list item) (startpos pos : nat)
    (newitem : item) : result (list item) :=
  match fuel with
  | O => Ok (<[pos:=newitem]> heap)
  | S fuel' =>
      if (startpos <? pos)%nat then
        let parentpos := ((pos - 1) / 2)%nat in
        match heap !! parentpos with
        | Some parent =>
            lt ← item_lt newitem parent;
            if (lt : bool) then siftdown_loop fuel' (<[pos:=parent]> heap) startpos parentpos newitem
            else Ok (<[pos:=newitem]> heap)
        | None => Raise IndexError
        end
      else Ok (<[pos:=newitem]> heap)
  end.

Definition siftdown (heap : list item) (startpos pos : nat) : result (list item) :=
  match heap !! pos with
  | Some newitem => siftdown_loop pos heap startpos pos newitem
  | None => Raise IndexError
  end.

(** The [while childpos < endpos] loop of [_siftup]: the smaller child
    moves up until a leaf is reached; returns the heap and the leaf. *)
Fixpoint siftup_loop (fuel : nat) (heap : list item) (endpos pos : nat)
    : result (list item * nat) :=
  let childpos := (2 * pos + 1)%nat in
  match fuel with
  | O => Ok (heap, pos)
  | S fuel' =>
      if (childpos <? endpos)%nat then
        let rightpos := (childpos + 1)%nat in
        childpos' ←
          (if (rightpos <? endpos)%nat then
             match heap !! childpos, heap !! rightpos with
             | Some c, Some r =>
                 lt ← item_lt c r; Ok (if (lt : bool) then childpos else rightpos)
             | _, _ => Raise IndexError
             end
           else Ok childpos);
        match heap !! childpos' with
        | Some c => siftup_loop fuel' (<[pos:=c]> heap) endpos childpos'
        | None => Raise IndexError
        end
      else Ok (heap, pos)
  end.

Definition siftup (heap : list item) (pos : nat) : result (list item) :=
  match heap !! pos with
  | Some newitem =>
      '(heap', pos') ← siftup_loop (length heap) heap (length heap) pos;
      siftdown (<[pos':=newitem]> heap') pos pos'
  | None => Raise IndexError
  end.

Definition heappush (heap : list item) (it : item) : result (list item) :=
  siftdown (heap ++ [it]) 0 (length heap).

Definition heappop (heap : list item) : result (item * list item) :=
  match last heap with
  | None => Raise IndexError
  | Some lastelt =>
      match removelast heap with
      | [] => Ok (lastelt, [])
      | returnitem :: rest =>
          heap' ← siftup (lastelt :: rest) 0;
          Ok (returnitem, heap')
      end
  end.

End heapq.

Inductive queue_class : Type := Queue | LifoQueue | PriorityQueue.

Record frontier : Type := Frontier {
  discipline : queue_class;
  items : list item
}.

Definition empty (f : frontier) : bool :=
  match items f with [] => true | _ :: _ => false end.

Definition put (f : frontier) (it : item) : result frontier :=
  match discipline f with
  | Queue | LifoQueue => Ok (Frontier (discipline f) (items f ++ [it]))
  | PriorityQueue => q ← heapq.heappush (items f) it; Ok (Frontier PriorityQueue q)
  end.

(** [frontier.get()]; the solver only calls it after [not frontier.empty()]
    (on an empty queue Python would block, which is shown as an error). *)
Definition get (f : frontier) : result (item * frontier) :=
  match discipline f with
  | Queue =>
      match items f with
      | it :: q => Ok (it, Frontier Queue q)
      | [] => Raise IndexError
      end
  | LifoQueue =>
      match last (items f) with
      | Some it => Ok (it, Frontier LifoQueue (removelast (items f)))
      | None => Raise IndexError
      end
  | PriorityQueue =>
      '(it, q) ← heapq.heappop (items f); Ok (it, Frontier PriorityQueue q)
  end.

(** ** modules/solver.py *)

Module Solver.

Record t : Type := Solver {
  initial_state : ref;
  strategy : string
}.

(** The state of one of the five search loops: the frontier and the
    [visited] set (of objects, compared by identity). *)
Record config : Type := Config {
  config_frontier : frontier;
  visited : gset ref
}.

(** What a search loop hands back: [Return (Some path)], [Return None]
    (Python's [None]), or the loop was cut off by the fuel of the model. *)
Inductive loop_result : Type :=
  | Return (solution : option path)
  | OutOfFuel.

Section Search.

(** How a strategy builds the tuple it puts on the frontier. *)
Variable mk_item : ref → path → M item.

(** The [for direction in ['U', 'D', 'L', 'R']] loop. *)
Definition expand (current_state : ref) (p : path) (c : config) : M config :=
  for_acc ["U"; "D"; "L"; "R"]%string c (λ c direction,
    new_state ← GameState.move current_state direction;
    if bool_decide (new_state ∈ visited c) then mret c
    else
      let new_path := p ++ [direction] in
      it ← mk_item new_state new_path;
      f ← lift (put (config_frontier c) it);
      mret (Config f (visited c))).

(** One round of [while not frontier.empty()]: [inr] leaves the loop with
    the value returned. *)
Definition iteration (c : config) : M (config + option path) :=
  if empty (config_frontier c) then mret (inr None)
  else
    got ← lift (get (config_frontier c));
    let current_state := item_state got.1 in
    let p := item_path got.1 in
    solved ← GameState.check_solved current_state;
    if (solved : bool) then mret (inr (Some p))
    else if bool_decide (current_state ∈ visited c) then
      mret (inl (Config got.2 (visited c)))
    else
      c' ← expand current_state p (Config got.2 ({[current_state]} ∪ visited c));
      mret (inl c').

Fixpoint while (fuel : nat) (c : config) : M loop_result :=
  match fuel with
  | O => mret OutOfFuel
  | S fuel' =>
      r ← iteration c;
      match r with
      | inl c' => while fuel' c'
      | inr solution => mret (Return solution)
      end
  end.

(** The configuration after [n] rounds, when the loop is still running. *)
Fixpoint rounds (n : nat) (c : config) : M (option config) :=
  match n with
  | O => mret (Some c)
  | S n' =>
      r ← iteration c;
      match r with
      | inl c' => rounds n' c'
      | inr _ => mret None
      end
  end.

(** The frontier is created, the initial tuple is put on it. *)
Definition start (class : queue_class) (initial : ref) : M config :=
  it ← mk_item initial [];
  f ← lift (put (Frontier class []) it);
  mret (Config f ∅).

Definition search (class : queue_class) (initial : ref) (fuel : nat) : M loop_result :=
  c ← start class initial;
  while fuel c.

End Search.

(** The same loops with the method that they call on the current state as
    a parameter: [expand], [iteration], [while], [rounds] and [search] are
    these at [GameState.move]. *)
Section SearchBy.

Variable step : ref → string → M ref.
Variable mk_item : ref → path → M item.

Definition expand_by (current_state : ref) (p : path) (c : config) : M config :=
  for_acc ["U"; "D"; "L"; "R"]%string c (λ c direction,
    new_state ← step current_state direction;
    if bool_decide (new_state ∈ visited c) then mret c
    else
      let new_path := p ++ [direction] in
      it ← mk_item new_state new_path;
      f ← lift (put (config_frontier c) it);
      mret (Config f (visited c))).

Definition iteration_by (c : config) : M (config + option path) :=
  if empty (config_frontier c) then mret (inr None)
  else
    got ← lift (get (config_frontier c));
    let current_state := item_state got.1 in
    let p := item_path got.1 in
    solved ← GameState.check_solved current_state;
    if (solved : bool) then mret (inr (Some p))
    else if bool_decide (current_state ∈ visited c) then
      mret (inl (Config got.2 (visited c)))
    else
      c' ← expand_by current_state p (Config got.2 ({[current_state]} ∪ visited c));
      mret (inl c').

Fixpoint while_by (fuel : nat) (c : config) : M loop_result :=
  match fuel with
  | O => mret OutOfFuel
  | S fuel' =>
      r ← iteration_by c;
      match r with
      | inl c' => while_by fuel' c'
      | inr solution => mret (Return solution)
      end
  end.

Fixpoint rounds_by (n : nat) (c : config) : M (option config) :=
  match n with
  | O => mret (Some c)
  | S n' =>
      r ← iteration_by c;
      match r with
      | inl c' => rounds_by n' c'
      | inr _ => mret None
      end
  end.

Definition search_by (class : queue_class) (initial : ref) (fuel : nat)
    : M loop_result :=
  c ← start mk_item class initial;
  while_by fuel c.

End SearchBy.

Definition plain_item (state : ref) (p : path) : M item :=
  mret (Plain state p).

Definition astar_item (state : ref) (p : path) : M item :=
  key ← GameState.get_total_cost state; mret (Keyed key state p).

Definition ucs_item (state : ref) (p : path) : M item :=
  key ← GameState.get_current_cost state; mret (Keyed (Int key) state p).

Definition greedy_item (state : ref) (p : path) : M item :=
  key ← GameState.get_heuristic state; mret (Keyed key state p).

Definition bfs (self : t) : nat → M loop_result :=
  search plain_item Queue (initial_state self).

Definition dfs (self : t) : nat → M loop_result :=
  search plain_item LifoQueue (initial_state self).

Definition astar (self : t) : nat → M loop_result :=
  search astar_item PriorityQueue (initial_state self).

Definition ucs (self : t) : nat → M loop_result :=
  search ucs_item PriorityQueue (initial_state self).

Definition greedy (self : t) : nat → M loop_result :=
  search greedy_item PriorityQueue (initial_state self).

Definition custom (self : t) : M loop_result :=
  mret (Return (Some ["U"; "U"]%string)).

(** [solve]; the value is what ends up in [self.solution] (the timing
    fields are left out). *)
Definition solve (self : t) (fuel : nat) : M loop_result :=
  if String.eqb (strategy self) "bfs" then bfs self fuel
  else if String.eqb (strategy self) "dfs" then dfs self fuel
  else if String.eqb (strategy self) "astar" then astar self fuel
  else if String.eqb (strategy self) "ucs" then ucs self fuel
  else if String.eqb (strategy self) "greedy" then greedy self fuel
  else if String.eqb (strategy self) "custom" then custom self
  else raise Exception.

End Solver.

(** ** Vocabulary of the statements *)

Local Open Scope char_scope.

(** A computation that never changes the store. *)
Definition readonly {A} (m : M A) : Prop := ∀ h, (m h).2 = h.

(** The five search loops of [Solver]: how each builds its frontier tuples
    and which queue class it uses. *)
Definition loops : list ((ref → path → M item) * queue_class) :=
  [ (Solver.plain_item, Queue);            (* bfs *)
    (Solver.plain_item, LifoQueue);        (* dfs *)
    (Solver.astar_item, PriorityQueue);    (* astar *)
    (Solver.ucs_item, PriorityQueue);      (* ucs *)
    (Solver.greedy_item, PriorityQueue) ]. (* greedy *)

Definition search_strategies : list string :=
  ["bfs"; "dfs"; "astar"; "ucs"; "greedy"]%string.

(** The frontier tuple [it] carries a path as long as the cost of its
    state. *)
Definition cost_is_path_length (h : store) (it : item) : Prop :=
  (GameState.get_current_cost (item_state it) h).1
  = Ok (Z.of_nat (length (item_path it))).

(** Every object that has a current cost in [h] has the same in [h']. *)
Definition keeps_costs (h h' : store) : Prop :=
  ∀ r v, (GameState.get_current_cost r h).1 = Ok v →
         (GameState.get_current_cost r h').1 = Ok v.

(** What [move] and the search loops rely on from the constructor: when
    it returns, the object has the current cost it was given, and the
    objects that were there keep theirs. *)
Definition stores_cost (construct : grid → Z → M ref) : Prop :=
  ∀ map current_cost h s h',
    construct map current_cost h = (Ok s, h') →
    (GameState.get_current_cost s h').1 = Ok current_cost ∧ keeps_costs h h'.

(** What the loops rely on from [move]: a state that it returns is the
    one it was called on, or costs one more. *)
Definition steps_cost (step : ref → string → M ref) : Prop :=
  ∀ self direction h s h',
    step self direction h = (Ok s, h') →
    keeps_costs h h'
    ∧ (s = self
       ∨ ∃ cost, (GameState.get_current_cost self h).1 = Ok cost
                 ∧ (GameState.get_current_cost s h').1 = Ok (cost + 1)).

(** A constructor that gets through, as an instance of [stores_cost]: the
    statements of [__init__] with the assignments of [height] and [width]
    (its last two) ahead of the scans that read them. *)
Definition __init__sizes_first (self : ref) (map : grid) (current_cost : Z) : M unit :=
  _ ← setattr (set_map map) self;
  m ← getattr self_map self;
  _ ← setattr (set_height (Z.of_nat (length m))) self;
  m ← getattr self_map self;
  row0 ← lift (getitem m 0);
  _ ← setattr (set_width (Z.of_nat (length row0))) self;
  player ← GameState.find_player self;
  _ ← setattr (set_player player) self;
  boxes ← GameState.find_boxes self;
  _ ← setattr (set_boxes boxes) self;
  targets ← GameState.find_targets self;
  _ ← setattr (set_targets targets) self;
  is_solved ← GameState.check_solved self;
  _ ← setattr (set_is_solved is_solved) self;
  setattr (set_current_cost current_cost) self.

Definition new_sizes_first (map : grid) (current_cost : Z) : M ref :=
  self ← alloc;
  _ ← __init__sizes_first self map current_cost;
  mret self.

(** The symbols of a box: plain, or on a target. *)
Definition is_box_symbol (c : ascii) : bool := Ascii.eqb c "$" || Ascii.eqb c "*".

(** The cell one step from the player blocks the move: it is a wall, or a
    box whose own next cell is a wall or a box. *)
Definition blocked (map : grid) (new_position new_box_position : pos) : Prop :=
  GameState.cell map new_position = Ok "#"
  ∨ (∃ c, GameState.cell map new_position = Ok c ∧ is_box_symbol c = true
          ∧ (GameState.cell map new_box_position = Ok "#"
             ∨ ∃ c', GameState.cell map new_box_position = Ok c'
                     ∧ is_box_symbol c' = true)).

(** The step of each cardinal direction. *)
Definition step_of (direction : string) : option pos :=
  if String.eqb direction "U" then Some (-1, 0)
  else if String.eqb direction "D" then Some (1, 0)
  else if String.eqb direction "L" then Some (0, -1)
  else if String.eqb direction "R" then Some (0, 1)
  else None.

(** *** Boards used as concrete inputs *)

(** A fully initialised state object for [map]: the attribute values
    [__init__] is written to compute. *)
Definition state_of (map : grid) (player : option pos) (boxes targets : list pos)
    (is_solved : bool) (current_cost : Z) : instance :=
  Attrs (Some map) (Some player) (Some boxes) (Some targets) (Some is_solved)
    (Some current_cost) (Some (Z.of_nat (length map)))
    (Some (Z.of_nat (length (default [] (head map))))).

(** One free cell to the right of the player, a box and no target. *)
Definition corridor : grid :=
  [ ["#"; "#"; "#"; "#"; "#"];
    ["#"; "@"; " "; "$"; "#"];
    ["#"; "#"; "#"; "#"; "#"] ].
Definition corridor_state : instance :=
  state_of corridor (Some (1, 1)) [(1, 3)] [] false 0.


(** The player next to a box that stands on a target, a free cell behind. *)
Definition box_on_target : grid :=
  [ ["#"; "#"; "#"; "#"; "#"];
    ["#"; "@"; "*"; " "; "#"];
    ["#"; "#"; "#"; "#"; "#"] ].
Definition box_on_target_state : instance :=
  state_of box_on_target (Some (1, 1)) [(1, 2)] [(1, 2)] true 0.

(** The player next to a pushable box. *)
Definition pushable : grid :=
  [ ["#"; "#"; "#"; "#"; "#"];
    ["#"; "@"; "$"; "."; "#"];
    ["#"; "#"; "#"; "#"; "#"] ].
Definition pushable_state : instance :=
  state_of pushable (Some (1, 1)) [(1, 2)] [(1, 3)] false 0.

(** That board after the push to the right, one move later. *)
Definition pushed : grid :=
  [ ["#"; "#"; "#"; "#"; "#"];
    ["#"; " "; "@"; "*"; "#"];
    ["#"; "#"; "#"; "#"; "#"] ].
Definition pushed_state : instance :=
  state_of pushed (Some (1, 2)) [(1, 3)] [(1, 3)] true 1.

(** The player walled in next to a box that cannot move. *)
Definition wedged : grid :=
  [ ["#"; "#"; "#"; "#"];
    ["#"; "@"; "$"; "#"];
    ["#"; "#"; "#"; "#"] ].
Definition wedged_state : instance :=
  state_of wedged (Some (1, 1)) [(1, 2)] [] false 0.

(** The same board on a second object, with a cost of two moves. *)
Definition wedged_state_later : instance :=
  state_of wedged (Some (1, 1)) [(1, 2)] [] false 2.

(** A board without walls around it. *)
Definition open_board : grid :=
  [ ["@"; " "];
    [" "; "#"] ].
Definition open_board_state : instance :=
  state_of open_board (Some (0, 0)) [] [] true 0.

(** The smallest board: the player's row is the first and the last one,
    and so is the column. *)
Definition single_cell : grid := [ ["@"] ].
Definition single_cell_state : instance :=
  state_of single_cell (Some (0, 0)) [] [] true 0.

(** A board whose second row is shorter than its first. *)
Definition ragged : grid :=
  [ ["@"; " "];
    ["#"] ].
Definition ragged_state : instance :=
  state_of ragged (Some (0, 0)) [] [] true 0.

(** *** Cells, scans and distances *)

(** The row and column (counted from 0) of the cell that a position
    denotes, when it denotes one: negative indices count from the end. *)
Definition locate (map : grid) (position : pos) : option (nat * nat) :=
  n ← norm_index (length map) position.1;
  row ← map !! n;
  k ← norm_index (length row) position.2;
  Some (n, k).

(** The symbol in row [a.1], column [a.2]. *)
Definition symbol (map : grid) (a : nat * nat) : option ascii :=
  map !! a.1 ≫= (.!! a.2).

(** The grid with the symbol at row [a.1], column [a.2] replaced. *)
Definition write (map : grid) (a : nat * nat) (c : ascii) : grid :=
  alter (<[a.2:=c]>) a.1 map.

Definition is_player_symbol (c : ascii) : bool := Ascii.eqb c "@" || Ascii.eqb c "+".
Definition is_target_symbol (c : ascii) : bool := Ascii.eqb c "." || Ascii.eqb c "*".

(** The positions the scanning methods visit, in their order: row by row,
    each row from left to right. *)
Definition positions (height width : Z) : list pos :=
  i ← range height; j ← range width; [(i, j)].

(** [test] holds of the symbol at [position]. *)
Definition holds_at (test : ascii → bool) (map : grid) (position : pos) : bool :=
  match GameState.cell map position with
  | Ok c => test c
  | Raise _ => false
  end.

(** The cell at [position] can be read. *)
Definition readable (map : grid) (position : pos) : bool :=
  match GameState.cell map position with
  | Ok _ => true
  | Raise _ => false
  end.

(** The distance [manhattan_distance] takes the minimum of. *)
Definition l1 (p q : pos) : Z := Z.abs (p.1 - q.1) + Z.abs (p.2 - q.2).

(** The strategy names [solve] accepts. *)
Definition known_strategies : list string :=
  ["bfs"; "dfs"; "astar"; "ucs"; "greedy"; "custom"]%string.

(** * Properties *)

(** ** Reading the store *)

Lemma bind_readonly {A B} (m : M A) (f : A → M B) h :
  readonly m →
  (m ≫= f) h = match (m h).1 with Ok a => f a h | Raise e => (Raise e, h) end.
Proof.
  intros Hm. specialize (Hm h). unfold mbind, M_bind.
  destruct (m h) as [[a|e] h']; simpl in *; by subst.
Qed.

Lemma readonly_bind {A B} (m : M A) (f : A → M B) :
  readonly m → (∀ a, readonly (f a)) → readonly (m ≫= f).
Proof.
  intros Hm Hf h. rewrite bind_readonly by done.
  destruct (m h).1; [apply Hf | done].
Qed.

Lemma readonly_ret {A} (a : A) : readonly (mret a).
Proof. by intros h. Qed.

Lemma readonly_raise {A} e : readonly (@raise A e).
Proof. by intros h. Qed.

Lemma readonly_lift {A} (r : result A) : readonly (lift r).
Proof. by intros h. Qed.

Lemma readonly_getattr {A} (attr : instance → option A) self :
  readonly (getattr attr self).
Proof. intros h. unfold getattr. by destruct (h !! self ≫= attr). Qed.

Lemma readonly_for_acc {A S} (xs : list A) (body : S → A → M S) acc :
  (∀ s a, readonly (body s a)) → readonly (for_acc xs acc body).
Proof.
  intros Hb. revert acc.
  induction xs as [|x xs IH]; intros acc; simpl.
  - apply readonly_ret.
  - apply readonly_bind; [apply Hb | intros; apply IH].
Qed.

Ltac readonly :=
  repeat first
    [ apply readonly_bind; [|intros ?]
    | apply readonly_for_acc; intros ? ?
    | apply readonly_getattr | apply readonly_lift | apply readonly_ret
    | apply readonly_raise
    | match goal with |- readonly (if ?b then _ else _) => destruct b end
    | match goal with |- readonly (match ?o with Some _ => _ | None => _ end) =>
        destruct o end ].

Lemma readonly_read_cell self position : readonly (GameState.read_cell self position).
Proof. unfold GameState.read_cell. readonly. Qed.

Lemma readonly_is_wall self position : readonly (GameState.is_wall self position).
Proof. unfold GameState.is_wall, GameState.read_cell. readonly. Qed.

Lemma readonly_is_box self position : readonly (GameState.is_box self position).
Proof. unfold GameState.is_box, GameState.read_cell. readonly. Qed.

Lemma readonly_not_wall_and_not_box self position :
  readonly (GameState.not_wall_and_not_box self position).
Proof.
  unfold GameState.not_wall_and_not_box.
  apply readonly_bind; [apply readonly_is_wall|intros []]; simpl.
  - apply readonly_ret.
  - apply readonly_bind; [apply readonly_is_box|intros; apply readonly_ret].
Qed.

Lemma readonly_check_solved self : readonly (GameState.check_solved self).
Proof. unfold GameState.check_solved. readonly. Qed.

Lemma readonly_get_heuristic self : readonly (GameState.get_heuristic self).
Proof. unfold GameState.get_heuristic. readonly. Qed.

Lemma readonly_get_current_cost self : readonly (GameState.get_current_cost self).
Proof. unfold GameState.get_current_cost. readonly. Qed.

Lemma readonly_get_total_cost self : readonly (GameState.get_total_cost self).
Proof.
  unfold GameState.get_total_cost.
  apply readonly_bind; [apply readonly_get_current_cost|intros ?].
  apply readonly_bind; [apply readonly_get_heuristic|intros ?]. readonly.
Qed.

Lemma readonly_unpack player : readonly (GameState.unpack player).
Proof. unfold GameState.unpack. readonly. Qed.

Lemma readonly_new_position_of d i j : readonly (GameState.new_position_of d i j).
Proof. unfold GameState.new_position_of. readonly. Qed.

Ltac bind_step :=
  rewrite bind_readonly by
    first [ apply readonly_getattr | apply readonly_unpack
          | apply readonly_new_position_of | apply readonly_is_wall
          | apply readonly_is_box | apply readonly_lift
          | apply readonly_not_wall_and_not_box
          | apply readonly_check_solved | apply readonly_get_total_cost
          | apply readonly_get_current_cost | apply readonly_get_heuristic ].

(** ** The constructor *)

(** [__init__] stores [map], then [find_player] reads [self.height], which
    is only assigned by the second-to-last statement: the call leaves a new
    object that has its [map] and nothing else, and raises. *)
Lemma new_raises map current_cost h :
  GameState.new map current_cost h
  = (Raise AttributeError, h ++ [set_map map blank]).
Proof.
  unfold GameState.new, GameState.__init__, GameState.find_player, alloc, setattr,
    getattr, mbind, M_bind.
  replace (alter (set_map map) (length h) (h ++ [blank]))
    with (h ++ [set_map map blank])
    by (rewrite <- (Nat.add_0_r (length h)) at 1; by rewrite alter_app_r).
  by rewrite list_lookup_middle.
Qed.

(** ** What [move] can do *)

(** [move] has three outcomes: an exception with the store as it was, the
    input object itself with the store as it was, or the exception of the
    constructor with the half-built successor left in the store. *)
Lemma move_cases self direction h :
  (∃ e, GameState.move self direction h = (Raise e, h))
  ∨ GameState.move self direction h = (Ok self, h)
  ∨ (∃ new_map, GameState.move self direction h
               = (Raise AttributeError, h ++ [set_map new_map blank])).
Proof.
  unfold GameState.move.
  bind_step. destruct (getattr self_player self h).1 as [player|e]; [|eauto].
  bind_step. destruct (GameState.unpack player h).1 as [[i j]|e]; [|eauto].
  simpl.
  bind_step. destruct (GameState.new_position_of direction i j h).1 as [np|e]; [|eauto].
  bind_step. destruct (GameState.is_wall self np h).1 as [[]|e]; simpl; [eauto| |eauto].
  bind_step. destruct (GameState.is_box self np h).1 as [[]|e]; [| |eauto].
  - bind_step.
    destruct (GameState.not_wall_and_not_box self _ h).1 as [[]|e]; [|eauto|eauto].
    bind_step. destruct (getattr self_map self h).1 as [map|e]; [|eauto].
    bind_step. destruct (lift _ h).1 as [new_map|e]; [|eauto].
    bind_step. destruct (getattr self_current_cost self h).1 as [cost|e]; [|eauto].
    rewrite new_raises. eauto.
  - bind_step. destruct (getattr self_map self h).1 as [map|e]; [|eauto].
    bind_step. destruct (lift _ h).1 as [new_map|e]; [|eauto].
    bind_step. destruct (getattr self_current_cost self h).1 as [cost|e]; [|eauto].
    rewrite new_raises. eauto.
Qed.

(** [move] never hands back a state other than the one it was called on. *)
Lemma move_returns_self self direction h s h' :
  GameState.move self direction h = (Ok s, h') → s = self ∧ h' = h.
Proof.
  intros Hm.
  destruct (move_cases self direction h) as [[e He]|[He|[m He]]];
    rewrite He in Hm; by simplify_eq.
Qed.

(** ** The search loops *)

Lemma put_first class it : put (Frontier class []) it = Ok (Frontier class [it]).
Proof. by destruct class. Qed.

Lemma get_only class it : get (Frontier class [it]) = Ok (it, Frontier class []).
Proof. by destruct class. Qed.

Lemma readonly_mk_item mk class state p :
  (mk, class) ∈ loops → readonly (mk state p).
Proof.
  unfold loops. rewrite !elem_of_cons, elem_of_nil.
  intros [?|[?|[?|[?|[?|[]]]]]]; simplify_eq.
  - apply readonly_ret.
  - apply readonly_ret.
  - apply readonly_bind; [apply readonly_get_total_cost|intros; apply readonly_ret].
  - apply readonly_bind; [apply readonly_get_current_cost|intros; apply readonly_ret].
  - apply readonly_bind; [apply readonly_get_heuristic|intros; apply readonly_ret].
Qed.

(** Once the expanded state is in [visited], the direction loop puts
    nothing on the frontier: every [move] that returns gives that state. *)
Lemma directions_loop mk current_state p directions c h :
  current_state ∈ Solver.visited c →
  let body := λ (c : Solver.config) (direction : string),
    new_state ← GameState.move current_state direction;
    if bool_decide (new_state ∈ Solver.visited c) then mret c
    else
      it ← mk new_state (p ++ [direction]);
      f ← lift (put (Solver.config_frontier c) it);
      mret (Solver.Config f (Solver.visited c)) in
  (∃ e h', for_acc directions c body h = (Raise e, h'))
  ∨ for_acc directions c body h = (Ok c, h).
Proof.
  intros Hin body.
  induction directions as [|d ds IH]; simpl; [by right|].
  assert ((∃ e h', body c d h = (Raise e, h')) ∨ body c d h = (Ok c, h)) as Hb.
  { unfold body, mbind, M_bind.
    destruct (move_cases current_state d h) as [[e He]|[He|[m He]]]; rewrite He.
    - left; eauto.
    - right. by rewrite bool_decide_eq_true_2.
    - left; eauto. }
  unfold mbind, M_bind.
  destruct Hb as [(e & h' & Hb)|Hb]; rewrite Hb; [left; eauto|apply IH].
Qed.

Lemma expand_visited mk current_state p c h :
  current_state ∈ Solver.visited c →
  (∃ e h', Solver.expand mk current_state p c h = (Raise e, h'))
  ∨ Solver.expand mk current_state p c h = (Ok c, h).
Proof. intros Hin. by apply directions_loop. Qed.

Lemma iteration_empty mk class seen h :
  Solver.iteration mk (Solver.Config (Frontier class []) seen) h = (Ok (inr None), h).
Proof. done. Qed.

(** The round that pops the only tuple of a frontier: it raises, returns
    the path of the tuple because its state is solved, or goes on with an
    empty frontier. *)
Lemma iteration_only mk class it h :
  (∃ e h', Solver.iteration mk (Solver.Config (Frontier class [it]) ∅) h = (Raise e, h'))
  ∨ (Solver.iteration mk (Solver.Config (Frontier class [it]) ∅) h
       = (Ok (inr (Some (item_path it))), h)
     ∧ (GameState.check_solved (item_state it) h).1 = Ok true)
  ∨ Solver.iteration mk (Solver.Config (Frontier class [it]) ∅) h
       = (Ok (inl (Solver.Config (Frontier class []) ({[item_state it]} ∪ ∅))), h).
Proof.
  unfold Solver.iteration. simpl.
  bind_step. rewrite get_only. simpl.
  bind_step. destruct (GameState.check_solved (item_state it) h).1 as [[]|e] eqn:Hs.
  - right; left. done.
  - rewrite bool_decide_eq_false_2 by set_solver.
    destruct (expand_visited mk (item_state it) (item_path it)
      (Solver.Config (Frontier class []) ({[item_state it]} ∪ ∅)) h) as [(e & h' & He)|He].
    { simpl. set_solver. }
    + left. exists e, h'. unfold mbind, M_bind. by rewrite He.
    + right; right. unfold mbind, M_bind. by rewrite He.
  - left; eauto.
Qed.

Lemma start_cases mk class initial h :
  (mk, class) ∈ loops →
  (∃ e, Solver.start mk class initial h = (Raise e, h))
  ∨ (∃ it, Solver.start mk class initial h
           = (Ok (Solver.Config (Frontier class [it]) ∅), h)
           ∧ item_state it = initial ∧ item_path it = []).
Proof.
  intros Hl. unfold Solver.start.
  rewrite bind_readonly by (by eapply readonly_mk_item).
  destruct (mk initial [] h).1 as [it|e] eqn:Hit; [|eauto].
  rewrite put_first. right. exists it. split; [done|].
  revert Hl Hit. unfold loops. rewrite !elem_of_cons, elem_of_nil.
  intros [?|[?|[?|[?|[?|[]]]]]]; simplify_eq.
  - unfold Solver.plain_item. intros; by simplify_eq/=.
  - unfold Solver.plain_item. intros; by simplify_eq/=.
  - unfold Solver.astar_item. bind_step.
    destruct (GameState.get_total_cost initial h).1; intros; by simplify_eq/=.
  - unfold Solver.ucs_item. bind_step.
    destruct (GameState.get_current_cost initial h).1; intros; by simplify_eq/=.
  - unfold Solver.greedy_item. bind_step.
    destruct (GameState.get_heuristic initial h).1; intros; by simplify_eq/=.
Qed.

(** Two rounds always finish a search: the second one finds the frontier
    empty, because no successor is ever put on it. *)
Lemma search_two_rounds mk class initial fuel h :
  (mk, class) ∈ loops →
  (Solver.search mk class initial (S (S fuel)) h).1 ≠ Ok Solver.OutOfFuel.
Proof.
  intros Hl. unfold Solver.search.
  destruct (start_cases mk class initial h Hl) as [[e He]|(it & He & _)];
    unfold mbind at 1, M_bind at 1; rewrite He; [done|].
  cbn [Solver.while]. unfold mbind at 1, M_bind at 1.
  destruct (iteration_only mk class it h) as [(e & h' & Hi)|[[Hi _]|Hi]];
    by rewrite Hi.
Qed.

(** ** The frontier keeps what is on it *)

(** The rounds of the sifting loops are bounded by the position, so the
    fuel they are given never runs out. *)
Lemma siftdown_loop_fuel fuel fuel' heap startpos pos newitem :
  (pos ≤ fuel)%nat → (pos ≤ fuel')%nat →
  heapq.siftdown_loop fuel heap startpos pos newitem
  = heapq.siftdown_loop fuel' heap startpos pos newitem.
Proof.
  revert fuel' heap pos.
  induction fuel as [|fuel IH]; intros fuel' heap pos Hf Hf'.
  - assert (pos = 0%nat) as -> by lia. by destruct fuel'.
  - destruct fuel' as [|fuel'].
    { assert (pos = 0%nat) as -> by lia. done. }
    cbn [heapq.siftdown_loop].
    destruct (startpos <? pos)%nat eqn:Hlt; [|done].
    apply Nat.ltb_lt in Hlt.
    destruct (heap !! _) as [parent|]; [|done].
    destruct (item_lt newitem parent) as [[]|]; unfold mbind, result_bind;
      cbn beta iota; try done.
    assert ((pos - 1) / 2 ≤ pos - 1)%nat by (apply Nat.Div0.div_le_upper_bound; lia).
    apply IH; lia.
Qed.

Lemma siftup_loop_fuel fuel fuel' heap endpos pos :
  (endpos - pos ≤ fuel)%nat → (endpos - pos ≤ fuel')%nat →
  heapq.siftup_loop fuel heap endpos pos = heapq.siftup_loop fuel' heap endpos pos.
Proof.
  revert fuel' heap pos.
  induction fuel as [|fuel IH]; intros fuel' heap pos Hf Hf'.
  - destruct fuel'; cbn [heapq.siftup_loop]; [done|].
    by rewrite (proj2 (Nat.ltb_ge _ _)) by lia.
  - destruct fuel' as [|fuel']; cbn [heapq.siftup_loop].
    { by rewrite (proj2 (Nat.ltb_ge _ _)) by lia. }
    destruct (2 * pos + 1 <? endpos)%nat eqn:Hlt; [|done].
    apply Nat.ltb_lt in Hlt.
    destruct (match (2 * pos + 1 + 1 <? endpos)%nat with true => _ | false => _ end)
      as [childpos|] eqn:Hchild; [|done].
    assert (childpos = 2 * pos + 1 ∨ childpos = 2 * pos + 1 + 1)%nat as Hpos.
    { destruct (2 * pos + 1 + 1 <? endpos)%nat; [|left; by simplify_eq].
      destruct (heap !! _); [|done]. destruct (heap !! _); [|done].
      destruct (item_lt _ _) as [[]|]; simplify_eq/=; auto. }
    simpl. destruct (heap !! childpos); [|done].
    apply IH; lia.
Qed.

Section Kept.

(** Whatever holds of every tuple on a heap still holds after a sift, a
    push or a pop: they only move tuples around. *)
Variable P : item → Prop.

Lemma siftdown_loop_kept fuel heap startpos pos newitem heap' :
  Forall P heap → P newitem →
  heapq.siftdown_loop fuel heap startpos pos newitem = Ok heap' →
  Forall P heap'.
Proof.
  revert heap pos heap'.
  induction fuel as [|fuel IH]; intros heap pos heap' Hheap Hnew; simpl.
  - intros [= <-]. by apply Forall_insert.
  - destruct (startpos <? pos)%nat; [|intros [= <-]; by apply Forall_insert].
    destruct (heap !! _) as [parent|] eqn:Hparent; [|done].
    destruct (item_lt newitem parent) as [[]|]; simpl; [| |done].
    + apply IH; [|done]. apply Forall_insert; [done|].
      by eapply Forall_lookup_1.
    + intros [= <-]. by apply Forall_insert.
Qed.

Lemma siftdown_kept heap startpos pos heap' :
  Forall P heap → heapq.siftdown heap startpos pos = Ok heap' → Forall P heap'.
Proof.
  intros Hheap. unfold heapq.siftdown.
  destruct (heap !! pos) as [newitem|] eqn:Hnew; [|done].
  apply siftdown_loop_kept; [done|]. by eapply Forall_lookup_1.
Qed.

Lemma siftup_loop_kept fuel heap endpos pos heap' pos' :
  Forall P heap →
  heapq.siftup_loop fuel heap endpos pos = Ok (heap', pos') →
  Forall P heap'.
Proof.
  revert heap pos.
  induction fuel as [|fuel IH]; intros heap pos Hheap; simpl.
  - by intros [= <- <-].
  - destruct (_ <? endpos)%nat; [|by intros [= <- <-]].
    destruct (match (_ <? endpos)%nat with true => _ | false => _ end)
      as [childpos|]; simpl; [|done].
    destruct (heap !! childpos) as [c|] eqn:Hc; [|done].
    apply IH. apply Forall_insert; [done|]. by eapply Forall_lookup_1.
Qed.

Lemma siftup_kept heap pos heap' :
  Forall P heap → heapq.siftup heap pos = Ok heap' → Forall P heap'.
Proof.
  intros Hheap. unfold heapq.siftup.
  destruct (heap !! pos) as [newitem|] eqn:Hnew; [|done].
  destruct (heapq.siftup_loop _ _ _ _) as [[heap1 pos1]|] eqn:Hloop; simpl; [|done].
  apply siftdown_kept. apply Forall_insert.
  - by eapply siftup_loop_kept.
  - by eapply Forall_lookup_1.
Qed.

Lemma heappush_kept heap it heap' :
  Forall P heap → P it → heapq.heappush heap it = Ok heap' → Forall P heap'.
Proof.
  intros Hheap Hit. apply siftdown_kept.
  apply Forall_app. split; [done|]. by constructor.
Qed.

Lemma heappop_kept heap it heap' :
  Forall P heap → heapq.heappop heap = Ok (it, heap') → P it ∧ Forall P heap'.
Proof.
  intros Hheap. unfold heapq.heappop.
  destruct (last heap) as [lastelt|] eqn:Hlast; [|done].
  apply last_Some in Hlast as [front ->].
  rewrite removelast_last.
  apply Forall_app in Hheap as [Hfront Hlastelt].
  apply Forall_inv in Hlastelt.
  destruct front as [|returnitem rest].
  { simpl. intros [= <- <-]. split; [done|constructor]. }
  apply Forall_cons in Hfront as [Hreturn Hrest].
  destruct (heapq.siftup _ _) as [heap1|] eqn:Hup; simpl; [|done].
  intros [= <- <-]. split; [done|].
  eapply siftup_kept; [|done]. by constructor.
Qed.

Lemma put_kept f it f' :
  Forall P (items f) → P it → put f it = Ok f' → Forall P (items f').
Proof.
  intros Hf Hit. unfold put.
  destruct (discipline f).
  - intros [= <-]. simpl. apply Forall_app. split; [done|]. by constructor.
  - intros [= <-]. simpl. apply Forall_app. split; [done|]. by constructor.
  - destruct (heapq.heappush _ _) as [q|] eqn:Hq; simpl; [|done].
    intros [= <-]. simpl. by eapply heappush_kept.
Qed.

Lemma get_kept f it f' :
  Forall P (items f) → get f = Ok (it, f') → P it ∧ Forall P (items f').
Proof.
  intros Hf. unfold get.
  destruct (discipline f).
  - destruct (items f) as [|it0 q]; [done|].
    intros [= <- <-]. by apply Forall_cons in Hf.
  - destruct (last (items f)) as [it0|] eqn:Hlast; [|done].
    intros [= <- <-]. simpl.
    apply last_Some in Hlast as [front Hfront]. rewrite Hfront in *.
    rewrite removelast_last. apply Forall_app in Hf as [? Hl].
    by apply Forall_inv in Hl.
  - destruct (heapq.heappop _) as [[it0 q]|] eqn:Hpop; simpl; [|done].
    intros [= <- <-]. simpl. by eapply heappop_kept.
Qed.

(** A round that does not raise leaves the store alone.  If the loop goes
    on, the frontier holds nothing new; if it returns a path, that path
    belongs to the tuple just popped and the state of the tuple is
    solved. *)
Lemma iteration_kept mk c h r h' :
  Forall P (items (Solver.config_frontier c)) →
  Solver.iteration mk c h = (Ok r, h') →
  h' = h
  ∧ match r with
    | inl c' => Forall P (items (Solver.config_frontier c'))
    | inr (Some p) =>
        ∃ it f, get (Solver.config_frontier c) = Ok (it, f)
                ∧ item_path it = p ∧ P it
                ∧ (GameState.check_solved (item_state it) h).1 = Ok true
    | inr None => True
    end.
Proof.
  intros Hc. unfold Solver.iteration.
  destruct (empty _); [by intros [= <- <-]|].
  bind_step. simpl.
  destruct (get (Solver.config_frontier c)) as [[it f]|] eqn:Hget; [|done].
  destruct (get_kept _ _ _ Hc Hget) as [Hit Hf]. simpl.
  bind_step. destruct (GameState.check_solved (item_state it) h).1 as [[]|] eqn:Hs.
  - intros [= <- <-]. split; [done|]. by exists it, f.
  - destruct (bool_decide _); [by intros [= <- <-]|].
    destruct (expand_visited mk (item_state it) (item_path it)
      (Solver.Config f ({[item_state it]} ∪ Solver.visited c)) h)
      as [(e & h1 & He)|He]; [simpl; set_solver|..];
      unfold mbind, M_bind; rewrite He; [done|].
    by intros [= <- <-].
  - done.
Qed.

Lemma rounds_kept mk n c h c' h' :
  Forall P (items (Solver.config_frontier c)) →
  Solver.rounds mk n c h = (Ok (Some c'), h') →
  h' = h ∧ Forall P (items (Solver.config_frontier c')).
Proof.
  revert c.
  induction n as [|n IH]; intros c Hc; simpl; [by intros [= <- <-]|].
  unfold mbind, M_bind.
  destruct (Solver.iteration mk c h) as [[[c1|solution]|e] h1] eqn:Hi; [|done..].
  destruct (iteration_kept mk c h _ h1 Hc Hi) as [-> Hc1]. by apply IH.
Qed.

(** A returned path comes out of some round: it is the path of the tuple
    that round popped. *)
Lemma while_returns mk fuel c h p h' :
  Forall P (items (Solver.config_frontier c)) →
  Solver.while mk fuel c h = (Ok (Solver.Return (Some p)), h') →
  h' = h
  ∧ ∃ n c' it f,
      Solver.rounds mk n c h = (Ok (Some c'), h)
      ∧ get (Solver.config_frontier c') = Ok (it, f)
      ∧ item_path it = p ∧ P it
      ∧ (GameState.check_solved (item_state it) h).1 = Ok true.
Proof.
  revert c.
  induction fuel as [|fuel IH]; intros c Hc; simpl; [done|].
  unfold mbind at 1, M_bind at 1.
  destruct (Solver.iteration mk c h) as [[[c1|solution]|e] h1] eqn:Hi; [| |done].
  - destruct (iteration_kept mk c h _ h1 Hc Hi) as [-> Hc1].
    intros (-> & n & c' & it & f & Hn & Hrest)%IH; [|done].
    split; [done|]. exists (S n), c', it, f. split; [|done].
    simpl. unfold mbind, M_bind. by rewrite Hi.
  - destruct (iteration_kept mk c h _ h1 Hc Hi) as [-> Hsol].
    intros [= -> <-]. destruct Hsol as (it & f & Hget & Hp & Hit & Hs).
    split; [done|]. by exists 0%nat, c, it, f.
Qed.

End Kept.

(** ** [move] on a live object *)

Section Live.

Variables (h : store) (self : ref) (o : instance) (map : grid) (i j : Z).
Hypothesis Hlive : h !! self = Some o.
Hypothesis Hmap : self_map o = Some map.
Hypothesis Hplayer : self_player o = Some (Some (i, j)).

Lemma getattr_live {A} (attr : instance → option A) v :
  attr o = Some v → getattr attr self h = (Ok v, h).
Proof using Hlive. intros Hv. unfold getattr. rewrite Hlive. simpl. by rewrite Hv. Qed.

Lemma read_cell_live position :
  GameState.read_cell self position h = (GameState.cell map position, h).
Proof using Hlive Hmap.
  unfold GameState.read_cell, mbind at 1, M_bind. by rewrite (getattr_live _ map).
Qed.

Lemma is_wall_live position :
  GameState.is_wall self position h
  = (c ← GameState.cell map position; Ok (Ascii.eqb c "#"), h).
Proof using Hlive Hmap.
  unfold GameState.is_wall, mbind at 1, M_bind. rewrite read_cell_live.
  by destruct (GameState.cell map position).
Qed.

Lemma is_box_live position :
  GameState.is_box self position h
  = (c ← GameState.cell map position; Ok (is_box_symbol c), h).
Proof using Hlive Hmap.
  unfold GameState.is_box, mbind at 1, M_bind. rewrite read_cell_live.
  by destruct (GameState.cell map position).
Qed.

Lemma new_position_of_step direction di dj :
  step_of direction = Some (di, dj) →
  GameState.new_position_of direction i j h = (Ok (i + di, j + dj), h).
Proof.
  unfold step_of, GameState.new_position_of.
  repeat case_match; intros; simplify_eq; unfold mret, M_ret;
    repeat f_equal; lia.
Qed.

Lemma new_position_of_invalid direction :
  step_of direction = None →
  GameState.new_position_of direction i j h = (Raise ValueError, h).
Proof. unfold step_of, GameState.new_position_of. by repeat case_match. Qed.

(** The head of [move]: the player is unpacked and the target cell is
    computed; what follows is the body from [if not self.is_wall(...)]. *)
Lemma move_head direction :
  GameState.move self direction h
  = match (GameState.new_position_of direction i j h).1 with
    | Raise e => (Raise e, h)
    | Ok new_position =>
        match GameState.cell map new_position with
        | Raise e => (Raise e, h)
        | Ok c =>
            if Ascii.eqb c "#" then (Ok self, h)
            else if is_box_symbol c then
              let new_box_position :=
                (new_position.1 + (new_position.1 - i),
                 new_position.2 + (new_position.2 - j)) in
              match GameState.cell map new_box_position with
              | Raise e => (Raise e, h)
              | Ok c' =>
                  if Ascii.eqb c' "#" || is_box_symbol c' then (Ok self, h)
                  else
                    match GameState.push_map map i j new_position new_box_position with
                    | Raise e => (Raise e, h)
                    | Ok new_map =>
                        match self_current_cost o with
                        | Some _ => (Raise AttributeError, h ++ [set_map new_map blank])
                        | None => (Raise AttributeError, h)
                        end
                    end
              end
            else
              match GameState.walk_map map i j new_position with
              | Raise e => (Raise e, h)
              | Ok new_map =>
                  match self_current_cost o with
                  | Some _ => (Raise AttributeError, h ++ [set_map new_map blank])
                  | None => (Raise AttributeError, h)
                  end
              end
        end
    end.
Proof using Hlive Hmap Hplayer.
  unfold GameState.move.
  bind_step. rewrite (getattr_live _ (Some (i, j))) by done. simpl.
  bind_step. simpl.
  bind_step. destruct (GameState.new_position_of direction i j h).1 as [np|e]; [|done].
  bind_step. rewrite is_wall_live. simpl.
  destruct (GameState.cell map np) as [c|e] eqn:Hc; [simpl|done].
  destruct (Ascii.eqb c "#"); [done|simpl].
  bind_step. rewrite is_box_live, Hc. simpl.
  destruct (is_box_symbol c).
  - bind_step. unfold GameState.not_wall_and_not_box.
    bind_step. rewrite is_wall_live. simpl.
    destruct (GameState.cell map (np.1 + _, _)) as [c'|e] eqn:Hc'; simpl; [|done].
    destruct (Ascii.eqb c' "#"); simpl; [done|].
    bind_step. rewrite is_box_live, Hc'. simpl.
    destruct (is_box_symbol c'); simpl; [done|].
    bind_step. rewrite (getattr_live _ map) by done. simpl.
    bind_step. simpl. destruct (GameState.push_map _ _ _ _ _); [|done].
    bind_step. unfold getattr at 1. rewrite Hlive. simpl.
    destruct (self_current_cost o); simpl; [apply new_raises|done].
  - bind_step. rewrite (getattr_live _ map) by done. simpl.
    bind_step. simpl. destruct (GameState.walk_map _ _ _ _); [|done].
    bind_step. unfold getattr at 1. rewrite Hlive. simpl.
    destruct (self_current_cost o); simpl; [apply new_raises|done].
Qed.

End Live.

(** ** [GameState] against its specification *)

(** The attribute values of the boards above are the ones the scanning
    methods compute once [height] and [width] are there. *)
Example boards_consistent :
  Forall (λ o : instance,
      (GameState.find_player 0%nat [o]).1 = from_option Ok (Raise AttributeError) (self_player o)
      ∧ (GameState.find_boxes 0%nat [o]).1 = from_option Ok (Raise AttributeError) (self_boxes o)
      ∧ (GameState.find_targets 0%nat [o]).1 = from_option Ok (Raise AttributeError) (self_targets o)
      ∧ (GameState.check_solved 0%nat [o]).1
        = from_option Ok (Raise AttributeError) (self_is_solved o))
    [corridor_state; box_on_target_state; pushable_state; wedged_state;
     open_board_state; single_cell_state].
Proof. repeat constructor. Qed.

(** C1 (defect in the code).  Specified: [GameState(grid, pathCost)]
    succeeds and yields a state with the player, box and target positions,
    the solved flag and the dimensions of the grid, with [None] as player
    when the grid has no player cell.  In the code the call raises [AttributeError] for every grid, every cost and
    every store: [__init__] calls [find_player] before [height] and [width]
    are assigned, and all that is left is a new object holding [map]. *)
Theorem C1_constructor_raises (map : grid) (current_cost : Z) (h : store) :
  GameState.new map current_cost h
  = (Raise AttributeError, h ++ [set_map map blank])
  ∧ GameState.find_player (length h) (h ++ [set_map map blank])
    = (Raise AttributeError, h ++ [set_map map blank]).
Proof.
  split; [apply new_raises|].
  unfold GameState.find_player, getattr, mbind, M_bind.
  by rewrite list_lookup_middle.
Qed.

(** C2 (defect in the code).  Specified: for the [visited] set two states
    are equal exactly when their grids are identical cell for cell, whatever
    their costs.  [GameState] defines neither [__eq__] nor [__hash__], so
    [in visited] compares objects: with one state object in [visited], a
    round that pops a second object holding the very same grid does not
    recognise it, adds it to [visited] and expands it again, while the
    round that pops the first object itself skips it. *)
Theorem C2_visited_misses_equal_board :
  self_map wedged_state = self_map wedged_state_later
  ∧ self_current_cost wedged_state ≠ self_current_cost wedged_state_later
  ∧ Solver.iteration Solver.plain_item
      (Solver.Config (Frontier Queue [Plain 1 ["L"; "R"]%string]) {[0%nat]})
      [wedged_state; wedged_state_later]
    = (Ok (inl (Solver.Config (Frontier Queue []) ({[1%nat]} ∪ {[0%nat]}))),
       [wedged_state; wedged_state_later])
  ∧ Solver.iteration Solver.plain_item
      (Solver.Config (Frontier Queue [Plain 0 ["L"; "R"]%string]) {[0%nat]})
      [wedged_state; wedged_state_later]
    = (Ok (inl (Solver.Config (Frontier Queue []) {[0%nat]})),
       [wedged_state; wedged_state_later])
  ∧ Solver.iteration Solver.astar_item
      (Solver.Config (Frontier PriorityQueue [Keyed Inf 1 ["L"; "R"]%string]) {[0%nat]})
      [wedged_state; wedged_state_later]
    = (Ok (inl (Solver.Config (Frontier PriorityQueue []) ({[1%nat]} ∪ {[0%nat]}))),
       [wedged_state; wedged_state_later]).
Proof.
  split; [reflexivity|]. split; [discriminate|].
  split; [reflexivity|]. split; reflexivity.
Qed.

Lemma box_symbol_not_wall c : is_box_symbol c = true → Ascii.eqb c "#" = false.
Proof.
  unfold is_box_symbol. rewrite orb_true_iff, !Ascii.eqb_eq.
  intros [->| ->]; reflexivity.
Qed.

(** C6.  When the cell one step from the player is a wall, or a box whose
    next cell in the same direction is a wall or a box, [move] returns the
    very object it was called on and leaves the store as it was; the
    current cost read afterwards is the one read before. *)
Theorem C6_blocked_move_returns_self (h : store) (self : ref) (o : instance)
    (map : grid) (i j di dj : Z) (direction : string) :
  h !! self = Some o →
  self_map o = Some map →
  self_player o = Some (Some (i, j)) →
  step_of direction = Some (di, dj) →
  blocked map (i + di, j + dj) (i + di + di, j + dj + dj) →
  GameState.move self direction h = (Ok self, h)
  ∧ (GameState.get_current_cost self (GameState.move self direction h).2).1
    = (GameState.get_current_cost self h).1.
Proof.
  intros Hlive Hmap Hplayer Hstep Hblocked.
  assert (GameState.move self direction h = (Ok self, h)) as Hmove.
  { rewrite (move_head h self o map i j Hlive Hmap Hplayer).
    rewrite (new_position_of_step h i j direction di dj Hstep). simpl.
    replace (i + di + (i + di - i)) with (i + di + di) by lia.
    replace (j + dj + (j + dj - j)) with (j + dj + dj) by lia.
    destruct Hblocked as [->|(c & -> & Hc & Hnext)]; [done|].
    rewrite (box_symbol_not_wall c Hc), Hc.
    destruct Hnext as [->|(c' & -> & Hc')]; [done|].
    by rewrite Hc', orb_true_r. }
  split; [done|]. by rewrite Hmove.
Qed.

Lemma C6_blocked_move_returns_self_witness :
  GameState.move 0 "R" [wedged_state] = (Ok 0%nat, [wedged_state])
  ∧ (GameState.get_current_cost 0 (GameState.move 0 "R" [wedged_state]).2).1
    = (GameState.get_current_cost 0 [wedged_state]).1.
Proof.
  apply (C6_blocked_move_returns_self [wedged_state] 0 wedged_state wedged 1 1 0 1 "R");
    try reflexivity.
  right. exists "$". split; [reflexivity|]. split; [reflexivity|].
  left. reflexivity.
Defined.

(** C7 (defect in the code).  Specified: a move into
    a free cell, or a push of a box into a free cell, returns a new state
    with the player (and the box) moved and a cost one higher.  In the code
    both build the new grid and then call the constructor, which raises
    (see C1): [move] raises [AttributeError], and the new grid is left on a
    half-built object. *)
Theorem C7_valid_move_raises :
  GameState.move 0 "R" [corridor_state]
  = (Raise AttributeError,
     [corridor_state;
      set_map [ ["#"; "#"; "#"; "#"; "#"];
                ["#"; " "; "@"; "$"; "#"];
                ["#"; "#"; "#"; "#"; "#"] ] blank])
  ∧ GameState.move 0 "R" [pushable_state]
    = (Raise AttributeError,
       [pushable_state;
        set_map [ ["#"; "#"; "#"; "#"; "#"];
                  ["#"; " "; "@"; "*"; "#"];
                  ["#"; "#"; "#"; "#"; "#"] ] blank]).
Proof. split; reflexivity. Qed.

(** The relabelling rules that the code does follow, on one-row boards:
    the player leaves a ['+'] cell, enters a ['.'] cell, and a box is
    pushed onto a ['.'] cell. *)
Example relabelling_followed :
  GameState.walk_map [["+"; " "]] 0 0 (0, 1) = Ok [["."; "@"]]
  ∧ GameState.walk_map [["@"; "."]] 0 0 (0, 1) = Ok [[" "; "+"]]
  ∧ GameState.push_map [["@"; "$"; "."]] 0 0 (0, 1) (0, 2) = Ok [[" "; "@"; "*"]].
Proof. repeat split. Qed.

(** In the push branch the entered cell holds a box, so the test for ['.']
    on it never succeeds: the statement that would write ['+'] is never
    run, and the player is always written as ['@']. *)
Lemma push_branch_writes_at map i j new_position new_box_position c :
  GameState.cell map new_position = Ok c →
  is_box_symbol c = true →
  GameState.push_map map i j new_position new_box_position
  = (m ← GameState.set_cell map (i, j) " ";
     c0 ← GameState.cell map (i, j);
     m ← (if Ascii.eqb c0 "+" then GameState.set_cell m (i, j) "." else Ok m);
     m ← GameState.set_cell m new_position "@";
     m ← GameState.set_cell m new_box_position "$";
     c' ← GameState.cell map new_box_position;
     if Ascii.eqb c' "." then GameState.set_cell m new_box_position "*" else Ok m).
Proof.
  intros Hc Hbox. unfold GameState.push_map, GameState.walk_map.
  assert (Ascii.eqb c "." = false) as Hdot.
  { revert Hbox. unfold is_box_symbol. rewrite orb_true_iff, !Ascii.eqb_eq.
    by intros [->| ->]. }
  destruct (GameState.set_cell map (i, j) " ") as [m1|]; simpl; [|done].
  destruct (GameState.cell map (i, j)) as [c0|]; simpl; [|done].
  destruct (if Ascii.eqb c0 "+" then _ else _) as [m2|]; simpl; [|done].
  destruct (GameState.set_cell m2 new_position "@") as [m3|]; simpl; [|done].
  by rewrite Hc; simpl; rewrite Hdot.
Qed.

(** C5 (defect in the code).  Specified: a box pushed
    off a ['*'] cell leaves the target marking behind, so that the player
    who enters the cell is recorded as ['+'].  The code only tests the
    entered cell for ['.'], which a cell holding a box never is: the player
    is written as ['@'] and the target is gone from the new grid. *)
Theorem C5_push_off_target_drops_target :
  GameState.cell box_on_target (1, 2) = Ok "*"
  ∧ GameState.push_map box_on_target 1 1 (1, 2) (1, 3)
    = Ok [ ["#"; "#"; "#"; "#"; "#"];
           ["#"; " "; "@"; "$"; "#"];
           ["#"; "#"; "#"; "#"; "#"] ]
  ∧ (GameState.move 0 "R" [box_on_target_state]).2 !! 1%nat
    = Some (set_map [ ["#"; "#"; "#"; "#"; "#"];
                      ["#"; " "; "@"; "$"; "#"];
                      ["#"; "#"; "#"; "#"; "#"] ] blank).
Proof. repeat split. Qed.

Lemma step_of_invalid direction :
  direction ∉ ["U"; "D"; "L"; "R"]%string → step_of direction = None.
Proof.
  intros Hd. unfold step_of.
  repeat case_match; try done;
    match goal with H : String.eqb _ _ = true |- _ => apply String.eqb_eq in H end;
    subst; exfalso; apply Hd; set_solver.
Qed.

(** C9.  For a direction outside ['U'], ['D'], ['L'], ['R'], [move] raises
    and the store is as it was: nothing has been allocated or assigned.
    On a state whose player is a position the exception is the
    [ValueError] of the final [else]. *)
Theorem C9_invalid_direction_raises (h : store) (self : ref) (direction : string) :
  direction ∉ ["U"; "D"; "L"; "R"]%string →
  (∃ e, GameState.move self direction h = (Raise e, h))
  ∧ (∀ position, h !! self ≫= self_player = Some (Some position) →
       GameState.move self direction h = (Raise ValueError, h)).
Proof.
  intros Hd%step_of_invalid.
  unfold GameState.move. bind_step. unfold getattr.
  destruct (h !! self ≫= self_player) as [[[i j]|]|]; simpl.
  - bind_step. simpl. bind_step.
    rewrite (new_position_of_invalid h i j direction Hd). simpl.
    split; [eauto|]. by intros.
  - split; [eauto|]. by intros.
  - split; [eauto|]. by intros.
Qed.

Lemma C9_invalid_direction_raises_witness :
  (∃ e, GameState.move 0 "X" [corridor_state] = (Raise e, [corridor_state]))
  ∧ (∀ position, [corridor_state] !! 0%nat ≫= self_player = Some (Some position) →
       GameState.move 0 "X" [corridor_state] = (Raise ValueError, [corridor_state])).
Proof.
  apply (C9_invalid_direction_raises [corridor_state] 0 "X").
  apply (bool_decide_unpack _). vm_compute. exact I.
Defined.

(** ** Indexing at the edge of the grid *)

Lemma getitem_minus_one {A} (l : list A) :
  getitem l (-1) = getitem l (Z.of_nat (length l) - 1).
Proof.
  unfold getitem, norm_index.
  destruct l as [|x l]; [done|].
  replace (0 <=? -1)%Z with false by done. simpl andb.
  rewrite (proj2 (Z.leb_le _ _)), (proj2 (Z.ltb_lt (-1) 0)) by (simpl length; lia).
  rewrite (proj2 (Z.leb_le 0 _)), (proj2 (Z.ltb_lt _ _)) by (simpl length; lia).
  done.
Qed.

Lemma getitem_last {A} (l : list A) :
  getitem l (-1) = from_option Ok (Raise IndexError) (last l).
Proof.
  rewrite getitem_minus_one, last_lookup. unfold getitem, norm_index.
  destruct l as [|x l]; [done|].
  rewrite (proj2 (Z.leb_le 0 _)), (proj2 (Z.ltb_lt _ _)) by (simpl length; lia).
  simpl. replace (Z.to_nat (Z.of_nat (S (length l)) - 1)) with (length l) by lia.
  by destruct ((x :: l) !! length l).
Qed.

Lemma getitem_past_end {A} (l : list A) :
  getitem l (Z.of_nat (length l)) = Raise IndexError.
Proof.
  unfold getitem, norm_index.
  rewrite (proj2 (Z.ltb_ge _ _)) by lia. rewrite andb_false_r.
  rewrite (proj2 (Z.ltb_ge (Z.of_nat (length l)) 0)) by lia. by rewrite andb_false_r.
Qed.

(** Row [-1] of a two-row board is its second row: the wall at [(1, 1)] is
    what [is_wall] sees at [(-1, 1)], and ['L'] from column 0 of row 1
    looks at that same wall. *)
Example wrap_around_reads_far_side :
  GameState.is_wall 0 (-1, 1) [open_board_state] = (Ok true, [open_board_state])
  ∧ GameState.is_wall 0 (1, -1) [open_board_state] = (Ok true, [open_board_state])
  ∧ GameState.is_wall 0 (2, 1) [open_board_state] = (Raise IndexError, [open_board_state]).
Proof. repeat split. Qed.

(** ** [Solver] against its specification *)

(** C3 (defect in the code).  Specified: a search on
    a board with no reachable solved state returns [None].  On the
    corridor board (a box, no target) the constructor cannot even build the
    initial state; and started on an initial state object for that board,
    each of the five strategies raises [AttributeError] in its first
    round, at the first [move] that is not refused (see C1, C7). *)
Theorem C3_unsolvable_search_raises :
  (GameState.new corridor 0 []).1 = Raise AttributeError
  ∧ (GameState.check_solved 0 [corridor_state]).1 = Ok false
  ∧ Forall (λ strategy, ∀ fuel,
        (Solver.solve (Solver.Solver 0 strategy) (S fuel) [corridor_state]).1
        = Raise AttributeError)
      search_strategies.
Proof.
  split; [reflexivity|]. split; [reflexivity|].
  repeat constructor.
Qed.

(** The one board on which a search does return [None]: no move is ever
    accepted, so the frontier empties after the first round. *)
Example wedged_search_returns_none :
  Forall (λ strategy,
        (Solver.solve (Solver.Solver 0 strategy) 2 [wedged_state]).1
        = Ok (Solver.Return None))
      search_strategies.
Proof. repeat constructor. Qed.

(** C4 (defect in the code).  Specified: a search loop
    never raises once the strategy is accepted.  On the pushable board, a
    valid initial state, every strategy raises [AttributeError] inside its
    loop, at the push to the right (see C1, C7). *)
Theorem C4_search_loop_raises :
  (GameState.check_solved 0 [pushable_state]).1 = Ok false
  ∧ Forall (λ strategy, ∀ fuel,
        (Solver.solve (Solver.Solver 0 strategy) (S fuel) [pushable_state]).1
        = Raise AttributeError)
      search_strategies.
Proof. split; [reflexivity|repeat constructor]. Qed.

(** A [PriorityQueue] that holds a tuple refuses a second tuple with the
    same key and another state object: the tuples are ordered by their
    states then, and [GameState] has no [__lt__].  With different keys, or
    the same state object, the order is settled without looking further. *)
Example priority_queue_ties :
  put (Frontier PriorityQueue [Keyed (Int 1) 0 ["R"%string]])
      (Keyed (Int 1) 1 ["L"%string])
  = Raise TypeError
  ∧ get (Frontier PriorityQueue
           [Keyed (Int 0) 0 []; Keyed (Int 1) 1 ["L"%string];
            Keyed (Int 1) 2 ["R"%string]])
    = Raise TypeError
  ∧ put (Frontier PriorityQueue [Keyed (Int 1) 0 ["R"%string]])
        (Keyed (Int 0) 1 ["L"%string])
    = Ok (Frontier PriorityQueue
            [Keyed (Int 0) 1 ["L"%string]; Keyed (Int 1) 0 ["R"%string]])
  ∧ put (Frontier PriorityQueue [Keyed (Int 1) 0 ["R"%string]])
        (Keyed (Int 1) 0 ["L"%string])
    = Ok (Frontier PriorityQueue
            [Keyed (Int 1) 0 ["L"%string]; Keyed (Int 1) 0 ["R"%string]]).
Proof. repeat split. Qed.

(** * Further properties of [game_state.py] *)

(** ** Reading and writing cells *)

Lemma norm_index_lt len i n : norm_index len i = Some n → (n < len)%nat.
Proof.
  unfold norm_index. intros H.
  destruct (0 <=? i)%Z eqn:H0; destruct (i <? Z.of_nat len)%Z eqn:H1; simpl in H;
    try (simplify_eq; lia);
    destruct (- Z.of_nat len <=? i)%Z eqn:H2; destruct (i <? 0)%Z eqn:H3;
    simpl in H; simplify_eq; lia.
Qed.

Lemma getitem_Ok {A} (l : list A) i x :
  getitem l i = Ok x ↔ ∃ n, norm_index (length l) i = Some n ∧ l !! n = Some x.
Proof.
  unfold getitem. destruct (norm_index (length l) i) as [n|]; simpl.
  - destruct (l !! n) as [y|] eqn:Hy; split.
    + intros [= ->]. eauto.
    + intros (? & [= <-] & ?). congruence.
    + done.
    + intros (? & [= <-] & ?). congruence.
  - split; [done|]. by intros (? & ? & ?).
Qed.

Lemma getitem_Raise {A} (l : list A) i e : getitem l i = Raise e → e = IndexError.
Proof. unfold getitem. destruct (_ ≫= _); by intros [=]. Qed.

Lemma cell_Ok map position c :
  GameState.cell map position = Ok c
  ↔ ∃ a, locate map position = Some a ∧ symbol map a = Some c.
Proof.
  unfold GameState.cell, locate, symbol. split.
  - destruct (getitem map position.1) as [row|] eqn:Hrow; [simpl|done].
    apply getitem_Ok in Hrow as (n & -> & Hn).
    intros (k & Hk & Hc)%getitem_Ok. simpl. rewrite Hn. simpl. rewrite Hk. simpl.
    exists (n, k). simpl. rewrite Hn. done.
  - intros ([n k] & Hloc & Hsym).
    destruct (norm_index (length map) position.1) as [n'|] eqn:Hn'; [simpl in *|done].
    destruct (map !! n') as [row|] eqn:Hrow; [simpl in *|done].
    destruct (norm_index (length row) position.2) as [k'|] eqn:Hk'; simplify_eq/=.
    rewrite Hrow in Hsym. simpl in Hsym.
    rewrite (proj2 (getitem_Ok map position.1 row)) by eauto. simpl.
    apply getitem_Ok. eauto.
Qed.

Lemma cell_Raise map position e :
  GameState.cell map position = Raise e → e = IndexError.
Proof.
  unfold GameState.cell.
  destruct (getitem map position.1) as [row|] eqn:Hrow; simpl.
  - apply getitem_Raise.
  - intros [= <-]. by eapply getitem_Raise.
Qed.

Lemma locate_symbol map position a :
  locate map position = Some a → is_Some (symbol map a).
Proof.
  unfold locate, symbol.
  destruct (norm_index (length map) position.1) as [n|]; [simpl|done].
  destruct (map !! n) as [row|] eqn:Hrow; [simpl|done].
  destruct (norm_index (length row) position.2) as [k|] eqn:Hk; [simpl|done].
  intros [= <-]. simpl. rewrite Hrow. simpl.
  apply lookup_lt_is_Some. by eapply norm_index_lt.
Qed.

Lemma cell_locate map position :
  GameState.cell map position
  = match locate map position ≫= symbol map with
    | Some c => Ok c
    | None => Raise IndexError
    end.
Proof.
  destruct (GameState.cell map position) as [c|e] eqn:Hc.
  - apply cell_Ok in Hc as (a & -> & Ha). simpl. by rewrite Ha.
  - pose proof (cell_Raise _ _ _ Hc) as ->.
    destruct (locate map position) as [a|] eqn:Ha; [simpl|done].
    destruct (symbol map a) as [c|] eqn:Hs; [|done].
    assert (GameState.cell map position = Ok c) as Hc' by (apply cell_Ok; eauto).
    congruence.
Qed.

Lemma setitem_Ok {A} (l : list A) i x n :
  norm_index (length l) i = Some n → setitem l i x = Ok (<[n:=x]> l).
Proof. unfold setitem. by intros ->. Qed.

Lemma set_cell_located map position c a :
  locate map position = Some a →
  GameState.set_cell map position c = Ok (write map a c).
Proof.
  unfold locate, GameState.set_cell, write.
  destruct (norm_index (length map) position.1) as [n|] eqn:Hn; [simpl|done].
  destruct (map !! n) as [row|] eqn:Hrow; [simpl|done].
  destruct (norm_index (length row) position.2) as [k|] eqn:Hk; [simpl|done].
  intros [= <-]. simpl.
  rewrite (proj2 (getitem_Ok map position.1 row)) by eauto. simpl.
  rewrite (setitem_Ok row _ _ k Hk). simpl.
  rewrite (setitem_Ok map _ _ n Hn). f_equal.
  apply list_eq. intros m. destruct (decide (m = n)) as [->|Hne].
  - rewrite list_lookup_insert_eq by (by eapply lookup_lt_Some).
    rewrite list_lookup_alter_eq, Hrow; done.
  - rewrite list_lookup_insert_ne, list_lookup_alter_ne by done. done.
Qed.

Lemma set_cell_unlocated map position c :
  locate map position = None →
  GameState.set_cell map position c = Raise IndexError.
Proof.
  unfold locate, GameState.set_cell.
  destruct (norm_index (length map) position.1) as [n|] eqn:Hn; simpl.
  - destruct (map !! n) as [row|] eqn:Hrow; simpl.
    + rewrite (proj2 (getitem_Ok map position.1 row)) by eauto. simpl.
      unfold setitem. by destruct (norm_index (length row) position.2).
    + apply norm_index_lt in Hn. apply lookup_ge_None in Hrow. lia.
  - intros _. unfold getitem. by rewrite Hn.
Qed.

Lemma write_lookup map a c n :
  write map a c !! n
  = if decide (n = a.1) then <[a.2:=c]> <$> map !! n else map !! n.
Proof.
  unfold write. case_decide as H.
  - subst. by rewrite list_lookup_alter_eq.
  - by rewrite list_lookup_alter_ne.
Qed.

Lemma write_length map a c : length (write map a c) = length map.
Proof. unfold write. apply length_alter. Qed.

Lemma locate_write map a c position :
  locate (write map a c) position = locate map position.
Proof.
  unfold locate. rewrite write_length.
  destruct (norm_index (length map) position.1) as [n|]; [simpl|done].
  rewrite write_lookup. case_decide; [|done].
  destruct (map !! n) as [row|]; [simpl|done].
  by rewrite length_insert.
Qed.

Lemma symbol_write_same map a c :
  is_Some (symbol map a) → symbol (write map a c) a = Some c.
Proof.
  unfold symbol. rewrite write_lookup, decide_True by done.
  destruct (map !! a.1) as [row|]; simpl; [|by intros [? [=]]].
  intros [c0 Hc0]. apply list_lookup_insert_eq. by eapply lookup_lt_Some.
Qed.

Lemma symbol_write_other map a c b :
  b ≠ a → symbol (write map a c) b = symbol map b.
Proof.
  intros Hne. unfold symbol. rewrite write_lookup. case_decide as H; [|done].
  destruct (map !! b.1) as [row|]; [simpl|done].
  apply list_lookup_insert_ne. intros Heq. apply Hne.
  destruct a, b; simpl in *; congruence.
Qed.

Lemma symbol_write_is_Some map a c b :
  is_Some (symbol (write map a c) b) ↔ is_Some (symbol map b).
Proof.
  destruct (decide (b = a)) as [->|Hne]; [|by rewrite symbol_write_other].
  split; [|intros H; rewrite symbol_write_same; eauto].
  unfold symbol. rewrite write_lookup, decide_True by done.
  destruct (map !! a.1) as [row|]; simpl; [|done].
  rewrite !lookup_lt_is_Some. by rewrite length_insert.
Qed.

(** X1.  Writing a cell and reading it back.  [new_map[i][j] = c] succeeds
    exactly on the positions that denote a cell, negative indices
    included, and raises [IndexError] on the others; after it the position
    reads [c], every position denotes the cell it denoted before, and the
    positions that denote another cell read what they read before. *)
Theorem X1_set_cell_then_cell (map : grid) (position : pos) (c : ascii) :
  match locate map position with
  | Some a =>
      ∃ map', GameState.set_cell map position c = Ok map'
        ∧ GameState.cell map' position = Ok c
        ∧ (∀ q, locate map' q = locate map q)
        ∧ (∀ q, locate map q ≠ Some a → GameState.cell map' q = GameState.cell map q)
  | None =>
      GameState.set_cell map position c = Raise IndexError
      ∧ GameState.cell map position = Raise IndexError
  end.
Proof.
  destruct (locate map position) as [a|] eqn:Ha.
  - exists (write map a c). split; [by apply set_cell_located|]. split; [|split].
    + rewrite cell_locate, locate_write, Ha. simpl.
      rewrite symbol_write_same; [done|]. by eapply locate_symbol.
    + intros q. apply locate_write.
    + intros q Hq. rewrite !cell_locate, locate_write.
      destruct (locate map q) as [b|]; [simpl|done].
      rewrite symbol_write_other; [done|]. congruence.
  - split; [by apply set_cell_unlocated|]. by rewrite cell_locate, Ha.
Qed.

Lemma cell_write map a c q :
  is_Some (symbol map a) →
  GameState.cell (write map a c) q
  = if decide (locate map q = Some a) then Ok c else GameState.cell map q.
Proof.
  intros Ha. rewrite !cell_locate, locate_write. case_decide as Hq.
  - rewrite Hq. simpl. by rewrite symbol_write_same.
  - destruct (locate map q) as [b|]; [simpl|done].
    rewrite symbol_write_other; [done|congruence].
Qed.

(** ** The grid of a successor *)

#[local] Arguments GameState.cell : simpl never.
#[local] Arguments GameState.set_cell : simpl never.

Ltac located :=
  repeat first
    [ rewrite locate_write
    | rewrite symbol_write_is_Some
    | eassumption
    | eapply locate_symbol; eassumption ].

(** [walk_map] as a sequence of writes. *)
Lemma walk_map_written map i j new_position left entered a b :
  locate map (i, j) = Some a → symbol map a = Some left →
  locate map new_position = Some b → symbol map b = Some entered →
  GameState.walk_map map i j new_position
  = Ok (let m := write map a " " in
        let m := if Ascii.eqb left "+" then write m a "." else m in
        let m := write m b "@" in
        if Ascii.eqb entered "." then write m b "+" else m).
Proof.
  intros Ha Hsa Hb Hsb.
  assert (GameState.cell map (i, j) = Ok left) as Hleft by (apply cell_Ok; eauto).
  assert (GameState.cell map new_position = Ok entered) as Hentered
    by (apply cell_Ok; eauto).
  unfold GameState.walk_map.
  rewrite (set_cell_located _ _ _ a) by located. simpl.
  rewrite Hleft. simpl.
  destruct (Ascii.eqb left "+"); simpl.
  - rewrite (set_cell_located _ _ _ a) by located. simpl.
    rewrite (set_cell_located _ _ _ b) by located. simpl.
    rewrite Hentered. simpl.
    destruct (Ascii.eqb entered "."); [|done].
    by rewrite (set_cell_located _ _ _ b) by located.
  - rewrite (set_cell_located _ _ _ b) by located. simpl.
    rewrite Hentered. simpl.
    destruct (Ascii.eqb entered "."); [|done].
    by rewrite (set_cell_located _ _ _ b) by located.
Qed.

(** [push_map] as a sequence of writes. *)
Lemma push_map_written map i j new_position new_box_position left entered behind a b c :
  locate map (i, j) = Some a → symbol map a = Some left →
  locate map new_position = Some b → symbol map b = Some entered →
  locate map new_box_position = Some c → symbol map c = Some behind →
  GameState.push_map map i j new_position new_box_position
  = Ok (let m := write map a " " in
        let m := if Ascii.eqb left "+" then write m a "." else m in
        let m := write m b "@" in
        let m := if Ascii.eqb entered "." then write m b "+" else m in
        let m := write m c "$" in
        if Ascii.eqb behind "." then write m c "*" else m).
Proof.
  intros Ha Hsa Hb Hsb Hc Hsc.
  assert (GameState.cell map new_box_position = Ok behind) as Hbehind
    by (apply cell_Ok; eauto).
  unfold GameState.push_map.
  rewrite (walk_map_written map i j new_position left entered a b) by done.
  simpl. rewrite Hbehind.
  destruct (Ascii.eqb left "+"), (Ascii.eqb entered "."); simpl;
    rewrite (set_cell_located _ _ _ c) by located; simpl;
    destruct (Ascii.eqb behind "."); try done;
    by rewrite (set_cell_located _ _ _ c) by located.
Qed.

(** Reads a grid that is a sequence of writes. *)
Ltac read_writes :=
  intros;
  repeat (rewrite cell_write by located);
  repeat (rewrite ?locate_write; case_decide);
  congruence.

(** X2.  The grid built for a step of the player.  When the player's cell
    and the entered cell are two different cells of the grid, the new grid
    has the same shape, the left cell reads ['.'] if it read ['+'] and
    [' '] otherwise, the entered cell reads ['+'] if it read ['.'] and
    ['@'] otherwise, and every other cell reads what it read before. *)
Theorem X2_walk_map_relabels (map : grid) (i j : Z) (new_position : pos)
    (left entered : ascii) :
  GameState.cell map (i, j) = Ok left →
  GameState.cell map new_position = Ok entered →
  locate map (i, j) ≠ locate map new_position →
  ∃ new_map,
    GameState.walk_map map i j new_position = Ok new_map
    ∧ (∀ q, locate new_map q = locate map q)
    ∧ GameState.cell new_map (i, j) = Ok (if Ascii.eqb left "+" then "." else " ")
    ∧ GameState.cell new_map new_position
      = Ok (if Ascii.eqb entered "." then "+" else "@")
    ∧ (∀ q, locate map q ≠ locate map (i, j) →
            locate map q ≠ locate map new_position →
            GameState.cell new_map q = GameState.cell map q).
Proof.
  intros (a & Ha & Hsa)%cell_Ok (b & Hb & Hsb)%cell_Ok Hne.
  rewrite Ha, Hb in Hne.
  eexists. split; [by eapply walk_map_written|]. simpl.
  destruct (Ascii.eqb left "+"), (Ascii.eqb entered ".");
    (split; [intros; by located|]); repeat split; read_writes.
Qed.

Lemma X2_walk_map_relabels_witness :
  GameState.cell [["+"; "."; "$"]] (0, 0) = Ok "+"
  ∧ GameState.cell [["+"; "."; "$"]] (0, 1) = Ok "."
  ∧ locate [["+"; "."; "$"]] (0, 0) ≠ locate [["+"; "."; "$"]] (0, 1)
  ∧ ∃ new_map,
      GameState.walk_map [["+"; "."; "$"]] 0 0 (0, 1) = Ok new_map
      ∧ (∀ q, locate new_map q = locate [["+"; "."; "$"]] q)
      ∧ GameState.cell new_map (0, 0) = Ok "."
      ∧ GameState.cell new_map (0, 1) = Ok "+"
      ∧ (∀ q, locate [["+"; "."; "$"]] q ≠ locate [["+"; "."; "$"]] (0, 0) →
              locate [["+"; "."; "$"]] q ≠ locate [["+"; "."; "$"]] (0, 1) →
              GameState.cell new_map q = GameState.cell [["+"; "."; "$"]] q).
Proof.
  split; [reflexivity|]. split; [reflexivity|].
  assert (locate [["+"; "."; "$"]] (0, 0) ≠ locate [["+"; "."; "$"]] (0, 1)) as Hne
    by (vm_compute; discriminate).
  split; [exact Hne|].
  exact (X2_walk_map_relabels [["+"; "."; "$"]] 0 0 (0, 1) "+" "." eq_refl eq_refl Hne).
Defined.

(** X3.  The grid built for a push.  When the player's cell, the cell of
    the box and the cell behind the box are three different cells, the new
    grid has the same shape; the player's old cell reads ['.'] if it read
    ['+'] and [' '] otherwise; the cell the box left always reads ['@'],
    also when it read ['*']; the cell behind reads ['*'] if it read ['.']
    and ['$'] otherwise; every other cell reads what it read before. *)
Theorem X3_push_map_relabels (map : grid) (i j : Z)
    (new_position new_box_position : pos) (left entered behind : ascii) :
  GameState.cell map (i, j) = Ok left →
  GameState.cell map new_position = Ok entered →
  GameState.cell map new_box_position = Ok behind →
  is_box_symbol entered = true →
  locate map (i, j) ≠ locate map new_position →
  locate map (i, j) ≠ locate map new_box_position →
  locate map new_position ≠ locate map new_box_position →
  ∃ new_map,
    GameState.push_map map i j new_position new_box_position = Ok new_map
    ∧ (∀ q, locate new_map q = locate map q)
    ∧ GameState.cell new_map (i, j) = Ok (if Ascii.eqb left "+" then "." else " ")
    ∧ GameState.cell new_map new_position = Ok "@"
    ∧ GameState.cell new_map new_box_position
      = Ok (if Ascii.eqb behind "." then "*" else "$")
    ∧ (∀ q, locate map q ≠ locate map (i, j) →
            locate map q ≠ locate map new_position →
            locate map q ≠ locate map new_box_position →
            GameState.cell new_map q = GameState.cell map q).
Proof.
  intros (a & Ha & Hsa)%cell_Ok (b & Hb & Hsb)%cell_Ok (c & Hc & Hsc)%cell_Ok
    Hbox Hab Hac Hbc.
  rewrite Ha, Hb, Hc in *.
  assert (Ascii.eqb entered "." = false) as Hdot.
  { revert Hbox. unfold is_box_symbol. rewrite orb_true_iff, !Ascii.eqb_eq.
    by intros [->| ->]. }
  eexists. split; [by eapply push_map_written|]. simpl. rewrite Hdot.
  destruct (Ascii.eqb left "+"), (Ascii.eqb behind ".");
    (split; [intros; by located|]); repeat split; read_writes.
Qed.

Lemma X3_push_map_relabels_witness :
  ∃ new_map,
    GameState.push_map [["+"; "*"; "."]] 0 0 (0, 1) (0, 2) = Ok new_map
    ∧ (∀ q, locate new_map q = locate [["+"; "*"; "."]] q)
    ∧ GameState.cell new_map (0, 0) = Ok "."
    ∧ GameState.cell new_map (0, 1) = Ok "@"
    ∧ GameState.cell new_map (0, 2) = Ok "*"
    ∧ (∀ q, locate [["+"; "*"; "."]] q ≠ locate [["+"; "*"; "."]] (0, 0) →
            locate [["+"; "*"; "."]] q ≠ locate [["+"; "*"; "."]] (0, 1) →
            locate [["+"; "*"; "."]] q ≠ locate [["+"; "*"; "."]] (0, 2) →
            GameState.cell new_map q = GameState.cell [["+"; "*"; "."]] q).
Proof.
  apply (X3_push_map_relabels [["+"; "*"; "."]] 0 0 (0, 1) (0, 2) "+" "*" ".");
    try reflexivity; vm_compute; discriminate.
Defined.

(** ** The scanning methods *)

Section Scans.

Variables (h : store) (self : ref) (o : instance) (map : grid) (height width : Z).
Hypothesis Hlive : h !! self = Some o.
Hypothesis Hmap : self_map o = Some map.
Hypothesis Hheight : self_height o = Some height.
Hypothesis Hwidth : self_width o = Some width.

Variable test : ascii → bool.

(** The inner loop of [find_boxes] and [find_targets] on row [i]. *)
Lemma collect_row i js acc :
  for_acc js acc (λ acc j,
    c ← GameState.read_cell self (i, j);
    mret (if test c then acc ++ [(i, j)] else acc)) h
  = (if forallb (readable map) (pair i <$> js)
     then Ok (acc ++ List.filter (holds_at test map) (pair i <$> js))
     else Raise IndexError, h).
Proof using Hlive Hmap.
  revert acc. induction js as [|j js IH]; intros acc; simpl.
  { by rewrite app_nil_r. }
  unfold mbind at 1, M_bind at 1. unfold mbind at 1, M_bind at 1.
  rewrite (read_cell_live h self o map Hlive Hmap).
  unfold readable at 1, holds_at at 1.
  destruct (GameState.cell map (i, j)) as [c|e] eqn:Hc; simpl.
  - rewrite IH. destruct (forallb _ _); [|done].
    destruct (test c); [|done]. by rewrite <- app_assoc.
  - by rewrite (cell_Raise _ _ _ Hc).
Qed.

(** The two nested loops. *)
Lemma collect_rows rows acc :
  for_acc rows acc (λ acc i,
    width ← getattr self_width self;
    for_acc (range width) acc (λ acc j,
      c ← GameState.read_cell self (i, j);
      mret (if test c then acc ++ [(i, j)] else acc))) h
  = (if forallb (readable map) (i ← rows; pair i <$> range width)
     then Ok (acc ++ List.filter (holds_at test map) (i ← rows; pair i <$> range width))
     else Raise IndexError, h).
Proof using Hlive Hmap Hwidth.
  revert acc. induction rows as [|i rows' IH]; intros acc; simpl.
  { by rewrite app_nil_r. }
  unfold mbind at 1, M_bind at 1. unfold mbind at 1, M_bind at 1.
  rewrite (getattr_live h self o Hlive _ width Hwidth).
  rewrite collect_row, forallb_app, List.filter_app.
  destruct (forallb (readable map) (pair i <$> range width)); simpl; [|done].
  rewrite IH. destruct (forallb _ _); [|done]. by rewrite <- app_assoc.
Qed.

Lemma find_first_app {A} (f : A → bool) (l1 l2 : list A) :
  List.find f (l1 ++ l2)
  = match List.find f l1 with Some x => Some x | None => List.find f l2 end.
Proof. induction l1 as [|x l1 IH]; simpl; [done|]. by destruct (f x). Qed.

(** The inner loop of [find_player] on row [i], every cell readable. *)
Lemma first_in_row i js :
  forallb (readable map) (pair i <$> js) = true →
  for_return js (λ j,
    c ← GameState.read_cell self (i, j);
    mret (if Ascii.eqb c "@" || Ascii.eqb c "+" then Some (i, j) else None)) h
  = (Ok (List.find (holds_at is_player_symbol map) (pair i <$> js)), h).
Proof using Hlive Hmap.
  induction js as [|j js IH]; simpl; [done|].
  intros [Hj Hjs]%andb_prop.
  unfold mbind at 1, M_bind at 1. unfold mbind at 1, M_bind at 1.
  rewrite (read_cell_live h self o map Hlive Hmap).
  unfold readable in Hj. unfold holds_at at 1.
  destruct (GameState.cell map (i, j)) as [c|e]; [simpl|done].
  fold (is_player_symbol c). destruct (is_player_symbol c); [done|].
  by apply IH.
Qed.

Lemma first_in_rows rows :
  forallb (readable map) (i ← rows; pair i <$> range width) = true →
  for_return rows (λ i,
    width ← getattr self_width self;
    for_return (range width) (λ j,
      c ← GameState.read_cell self (i, j);
      mret (if Ascii.eqb c "@" || Ascii.eqb c "+" then Some (i, j) else None))) h
  = (Ok (List.find (holds_at is_player_symbol map) (i ← rows; pair i <$> range width)), h).
Proof using Hlive Hmap Hwidth.
  induction rows as [|i rows' IH]; simpl; [done|].
  rewrite forallb_app. intros [Hi His]%andb_prop.
  unfold mbind at 1, M_bind at 1. unfold mbind at 1, M_bind at 1.
  rewrite (getattr_live h self o Hlive _ width Hwidth).
  rewrite (first_in_row i _ Hi), find_first_app.
  destruct (List.find _ (pair i <$> range width)); [done|].
  by apply IH.
Qed.

End Scans.

Lemma row_pairs (i : Z) (js : list Z) : (j ← js; [(i, j)]) = pair i <$> js.
Proof. induction js as [|j js IH]; [done|]. rewrite bind_cons, IH. done. Qed.

Lemma positions_rows height width :
  positions height width = (i ← range height; pair i <$> range width).
Proof.
  unfold positions. induction (range height) as [|i rows IH]; [done|].
  by rewrite !bind_cons, IH, row_pairs.
Qed.

Lemma is_target_live h self o map position :
  h !! self = Some o → self_map o = Some map →
  GameState.is_target self position h
  = (c ← GameState.cell map position; Ok (is_target_symbol c), h).
Proof.
  intros Hlive Hmap. unfold GameState.is_target, mbind at 1, M_bind.
  rewrite (read_cell_live h self o map Hlive Hmap).
  by destruct (GameState.cell map position).
Qed.

Lemma is_empty_live h self o map position :
  h !! self = Some o → self_map o = Some map →
  GameState.is_empty self position h
  = (c ← GameState.cell map position; Ok (Ascii.eqb c " "), h).
Proof.
  intros Hlive Hmap. unfold GameState.is_empty, mbind at 1, M_bind.
  rewrite (read_cell_live h self o map Hlive Hmap).
  by destruct (GameState.cell map position).
Qed.

Lemma elem_of_filter_holds test map (p : pos) ps :
  p ∈ List.filter (holds_at test map) ps
  ↔ p ∈ ps ∧ ∃ c, GameState.cell map p = Ok c ∧ test c = true.
Proof.
  rewrite !list_elem_of_In, filter_In. unfold holds_at.
  destruct (GameState.cell map p) as [c|e]; split; intros [Hp Hc]; split; try done.
  - eauto.
  - by destruct Hc as (c' & [= <-] & ?).
  - by destruct Hc as (? & ? & ?).
Qed.

(** X4.  [find_player] on a state whose [height] and [width] are set and
    whose cells in that range can all be read: it returns, without touching
    the store, the first position in row-major order that holds ['@'] or
    ['+'], and [None] exactly when no position in range holds one. *)
Theorem X4_find_player_first (h : store) (self : ref) (o : instance) (map : grid)
    (height width : Z) :
  h !! self = Some o →
  self_map o = Some map →
  self_height o = Some height →
  self_width o = Some width →
  forallb (readable map) (positions height width) = true →
  GameState.find_player self h
  = (Ok (List.find (holds_at is_player_symbol map) (positions height width)), h)
  ∧ match List.find (holds_at is_player_symbol map) (positions height width) with
    | Some p =>
        p ∈ positions height width
        ∧ (GameState.cell map p = Ok "@" ∨ GameState.cell map p = Ok "+")
    | None =>
        ∀ p, p ∈ positions height width →
             GameState.cell map p ≠ Ok "@" ∧ GameState.cell map p ≠ Ok "+"
    end.
Proof.
  intros Hlive Hmap Hheight Hwidth Hread. split.
  - unfold GameState.find_player. bind_step.
    rewrite (getattr_live h self o Hlive _ height Hheight). simpl.
    rewrite positions_rows in *.
    by apply (first_in_rows h self o map width Hlive Hmap Hwidth).
  - destruct (List.find _ _) as [p|] eqn:Hfind.
    + apply find_some in Hfind as [Hin Hp]. split; [by apply list_elem_of_In|].
      unfold holds_at, is_player_symbol in Hp.
      destruct (GameState.cell map p) as [c|]; [|done].
      apply orb_true_iff in Hp as [->%Ascii.eqb_eq| ->%Ascii.eqb_eq]; auto.
    + intros p Hin%list_elem_of_In.
      pose proof (find_none _ _ Hfind p Hin) as Hp.
      unfold holds_at in Hp. by split; intros Hc; rewrite Hc in Hp.
Qed.

Lemma X4_find_player_first_witness :
  GameState.find_player 0 [corridor_state] = (Ok (Some (1, 1)), [corridor_state])
  ∧ (1, 1) ∈ positions 3 5
  ∧ (GameState.cell corridor (1, 1) = Ok "@" ∨ GameState.cell corridor (1, 1) = Ok "+").
Proof.
  exact (X4_find_player_first [corridor_state] 0 corridor_state corridor 3 5
           eq_refl eq_refl eq_refl eq_refl eq_refl).
Defined.

(** X5.  [find_boxes] under the same conditions returns, without touching
    the store, the positions in range that hold ['$'] or ['*'], in
    row-major order; these are the positions in range that [is_box]
    accepts. *)
Theorem X5_find_boxes_filter (h : store) (self : ref) (o : instance) (map : grid)
    (height width : Z) :
  h !! self = Some o →
  self_map o = Some map →
  self_height o = Some height →
  self_width o = Some width →
  forallb (readable map) (positions height width) = true →
  GameState.find_boxes self h
  = (Ok (List.filter (holds_at is_box_symbol map) (positions height width)), h)
  ∧ ∀ p, p ∈ List.filter (holds_at is_box_symbol map) (positions height width)
         ↔ p ∈ positions height width ∧ GameState.is_box self p h = (Ok true, h).
Proof.
  intros Hlive Hmap Hheight Hwidth Hread. split.
  - unfold GameState.find_boxes. bind_step.
    rewrite (getattr_live h self o Hlive _ height Hheight). simpl.
    rewrite positions_rows in *.
    rewrite (collect_rows h self o map width Hlive Hmap Hwidth is_box_symbol).
    by rewrite Hread.
  - intros p. rewrite elem_of_filter_holds.
    rewrite (is_box_live h self o map Hlive Hmap).
    split; intros [Hp Hc]; (split; [done|]).
    + destruct Hc as (c & Hc & Hb). rewrite Hc. simpl. by rewrite Hb.
    + destruct (GameState.cell map p) as [c|]; [|done].
      exists c. split; [done|]. simpl in Hc. congruence.
Qed.

Lemma X5_find_boxes_filter_witness :
  GameState.find_boxes 0 [pushable_state] = (Ok [(1, 2)], [pushable_state])
  ∧ ∀ p, p ∈ [(1, 2)]
         ↔ p ∈ positions 3 5
           ∧ GameState.is_box 0 p [pushable_state] = (Ok true, [pushable_state]).
Proof.
  exact (X5_find_boxes_filter [pushable_state] 0 pushable_state pushable 3 5
           eq_refl eq_refl eq_refl eq_refl eq_refl).
Defined.

(** X6.  [find_targets] under the same conditions returns the positions in
    range that hold ['.'] or ['*'], in row-major order: the positions that
    [is_target] accepts.  A target the player stands on (['+']) is not
    among them. *)
Theorem X6_find_targets_filter (h : store) (self : ref) (o : instance) (map : grid)
    (height width : Z) :
  h !! self = Some o →
  self_map o = Some map →
  self_height o = Some height →
  self_width o = Some width →
  forallb (readable map) (positions height width) = true →
  GameState.find_targets self h
  = (Ok (List.filter (holds_at is_target_symbol map) (positions height width)), h)
  ∧ (∀ p, p ∈ List.filter (holds_at is_target_symbol map) (positions height width)
          ↔ p ∈ positions height width
            ∧ GameState.is_target self p h = (Ok true, h))
  ∧ (∀ p, GameState.cell map p = Ok "+" →
          (p ∉ List.filter (holds_at is_target_symbol map) (positions height width))
          ∧ GameState.is_target self p h = (Ok false, h)).
Proof.
  intros Hlive Hmap Hheight Hwidth Hread. split; [|split].
  - unfold GameState.find_targets. bind_step.
    rewrite (getattr_live h self o Hlive _ height Hheight). simpl.
    rewrite positions_rows in *.
    rewrite (collect_rows h self o map width Hlive Hmap Hwidth is_target_symbol).
    by rewrite Hread.
  - intros p. rewrite elem_of_filter_holds.
    rewrite (is_target_live h self o map p Hlive Hmap).
    split; intros [Hp Hc]; (split; [done|]).
    + destruct Hc as (c & Hc & Hb). rewrite Hc. simpl. by rewrite Hb.
    + destruct (GameState.cell map p) as [c|]; [|done].
      exists c. split; [done|]. simpl in Hc. congruence.
  - intros p Hplus. rewrite elem_of_filter_holds.
    rewrite (is_target_live h self o map p Hlive Hmap), Hplus.
    split; [|done]. by intros [_ (c & [= <-] & ?)].
Qed.

Lemma X6_find_targets_filter_witness :
  GameState.find_targets 0 [pushable_state] = (Ok [(1, 3)], [pushable_state])
  ∧ (∀ p, p ∈ [(1, 3)]
          ↔ p ∈ positions 3 5
            ∧ GameState.is_target 0 p [pushable_state] = (Ok true, [pushable_state]))
  ∧ (∀ p, GameState.cell pushable p = Ok "+" →
          (p ∉ [(1, 3)])
          ∧ GameState.is_target 0 p [pushable_state] = (Ok false, [pushable_state])).
Proof.
  exact (X6_find_targets_filter [pushable_state] 0 pushable_state pushable 3 5
           eq_refl eq_refl eq_refl eq_refl eq_refl).
Defined.

(** X7.  A cell in range that cannot be read (a row shorter than [width],
    or fewer rows than [height]) makes [find_boxes] and [find_targets]
    raise [IndexError], the store untouched. *)
Theorem X7_scans_raise_on_ragged_grid (h : store) (self : ref) (o : instance)
    (map : grid) (height width : Z) (p : pos) :
  h !! self = Some o →
  self_map o = Some map →
  self_height o = Some height →
  self_width o = Some width →
  p ∈ positions height width →
  readable map p = false →
  GameState.find_boxes self h = (Raise IndexError, h)
  ∧ GameState.find_targets self h = (Raise IndexError, h).
Proof.
  intros Hlive Hmap Hheight Hwidth Hin Hp.
  assert (forallb (readable map) (positions height width) = false) as Hread.
  { apply not_true_is_false. intros Hall.
    rewrite forallb_forall in Hall.
    apply list_elem_of_In, Hall in Hin. congruence. }
  rewrite positions_rows in Hread.
  unfold GameState.find_boxes, GameState.find_targets. split.
  - bind_step. rewrite (getattr_live h self o Hlive _ height Hheight). simpl.
    rewrite (collect_rows h self o map width Hlive Hmap Hwidth is_box_symbol).
    by rewrite Hread.
  - bind_step. rewrite (getattr_live h self o Hlive _ height Hheight). simpl.
    rewrite (collect_rows h self o map width Hlive Hmap Hwidth is_target_symbol).
    by rewrite Hread.
Qed.

Lemma X7_scans_raise_on_ragged_grid_witness :
  (1, 1) ∈ positions 2 2
  ∧ readable ragged (1, 1) = false
  ∧ GameState.find_boxes 0 [ragged_state] = (Raise IndexError, [ragged_state])
  ∧ GameState.find_targets 0 [ragged_state] = (Raise IndexError, [ragged_state]).
Proof.
  assert ((1, 1) ∈ positions 2 2) as Hin by (vm_compute; repeat constructor).
  split; [exact Hin|]. split; [reflexivity|].
  exact (X7_scans_raise_on_ragged_grid [ragged_state] 0 ragged_state ragged 2 2 (1, 1)
           eq_refl eq_refl eq_refl eq_refl Hin eq_refl).
Defined.

(** ** The cell predicates *)

(** X8.  The four cell predicates on a state with a grid.  On a cell that
    can be read they return without touching the store and sort the
    symbols: a wall is neither box, target nor empty; an empty cell is
    neither box nor target; only ['*'] is both box and target; and a cell
    holding the player (['@'] or ['+']) is none of the four, so a target
    under the player is not seen by [is_target].  On a position that
    denotes no cell all four raise [IndexError]. *)
Theorem X8_cell_predicates (h : store) (self : ref) (o : instance) (map : grid)
    (position : pos) :
  h !! self = Some o →
  self_map o = Some map →
  match GameState.cell map position with
  | Ok c =>
      ∃ wall box target empty : bool,
        GameState.is_wall self position h = (Ok wall, h)
        ∧ GameState.is_box self position h = (Ok box, h)
        ∧ GameState.is_target self position h = (Ok target, h)
        ∧ GameState.is_empty self position h = (Ok empty, h)
        ∧ (wall = true → box = false ∧ target = false ∧ empty = false)
        ∧ (empty = true → box = false ∧ target = false)
        ∧ (box && target = true ↔ c = "*")
        ∧ (c = "@" ∨ c = "+" →
           wall = false ∧ box = false ∧ target = false ∧ empty = false)
  | Raise _ =>
      GameState.is_wall self position h = (Raise IndexError, h)
      ∧ GameState.is_box self position h = (Raise IndexError, h)
      ∧ GameState.is_target self position h = (Raise IndexError, h)
      ∧ GameState.is_empty self position h = (Raise IndexError, h)
  end.
Proof.
  intros Hlive Hmap.
  rewrite (is_wall_live h self o map Hlive Hmap),
    (is_box_live h self o map Hlive Hmap),
    (is_target_live h self o map position Hlive Hmap),
    (is_empty_live h self o map position Hlive Hmap).
  destruct (GameState.cell map position) as [c|e] eqn:Hc; simpl.
  - eexists _, _, _, _. do 4 (split; [reflexivity|]).
    unfold is_box_symbol, is_target_symbol.
    destruct (Ascii.eqb c "#") eqn:E1, (Ascii.eqb c "$") eqn:E2,
      (Ascii.eqb c "*") eqn:E3, (Ascii.eqb c ".") eqn:E4, (Ascii.eqb c " ") eqn:E5;
      rewrite ?Ascii.eqb_eq, ?Ascii.eqb_neq in *;
      subst; try discriminate; simpl; intuition congruence.
  - by rewrite (cell_Raise _ _ _ Hc).
Qed.

Lemma X8_cell_predicates_witness :
  ∃ wall box target empty : bool,
    GameState.is_wall 0 (1, 2) [box_on_target_state] = (Ok wall, [box_on_target_state])
    ∧ GameState.is_box 0 (1, 2) [box_on_target_state] = (Ok box, [box_on_target_state])
    ∧ GameState.is_target 0 (1, 2) [box_on_target_state]
      = (Ok target, [box_on_target_state])
    ∧ GameState.is_empty 0 (1, 2) [box_on_target_state]
      = (Ok empty, [box_on_target_state])
    ∧ (wall = true → box = false ∧ target = false ∧ empty = false)
    ∧ (empty = true → box = false ∧ target = false)
    ∧ (box && target = true ↔ "*" = "*")
    ∧ ("*" = "@" ∨ "*" = "+" →
       wall = false ∧ box = false ∧ target = false ∧ empty = false).
Proof.
  exact (X8_cell_predicates [box_on_target_state] 0 box_on_target_state box_on_target
           (1, 2) eq_refl eq_refl).
Defined.

(** ** Goal test, distances and costs *)

Lemma pos_eqb_eq (p q : pos) : GameState.pos_eqb p q = true ↔ p = q.
Proof.
  unfold GameState.pos_eqb. rewrite andb_true_iff, !Z.eqb_eq.
  destruct p, q; simpl. split; [by intros [-> ->]|by intros [= -> ->]].
Qed.

Lemma existsb_pos_eqb (p : pos) (targets : list pos) :
  existsb (GameState.pos_eqb p) targets = true ↔ p ∈ targets.
Proof.
  rewrite existsb_exists, list_elem_of_In. split.
  - by intros (q & Hq & ->%pos_eqb_eq).
  - intros Hp. exists p. split; [done|]. by apply pos_eqb_eq.
Qed.

Section Costs.

Variables (h : store) (self : ref) (o : instance) (boxes targets : list pos).
Hypothesis Hlive : h !! self = Some o.
Hypothesis Hboxes : self_boxes o = Some boxes.
Hypothesis Htargets : self_targets o = Some targets.

(** The loop of [check_solved]. *)
Lemma check_solved_loop bs ok :
  for_acc bs ok (λ (ok : bool) box,
    if ok then
      targets ← getattr self_targets self;
      mret (existsb (GameState.pos_eqb box) targets)
    else mret false) h
  = (Ok (ok && forallb (λ box, existsb (GameState.pos_eqb box) targets) bs), h).
Proof using Hlive Htargets.
  revert ok. induction bs as [|b bs IH]; intros ok; simpl.
  { by rewrite andb_true_r. }
  unfold mbind at 1, M_bind at 1. destruct ok; simpl.
  - unfold mbind at 1, M_bind at 1.
    rewrite (getattr_live h self o Hlive _ targets Htargets). simpl.
    rewrite IH. by destruct (existsb _ _).
  - by rewrite IH.
Qed.

Lemma check_solved_live :
  GameState.check_solved self h
  = (Ok (forallb (λ box, existsb (GameState.pos_eqb box) targets) boxes), h).
Proof using Hlive Hboxes Htargets.
  unfold GameState.check_solved. bind_step.
  rewrite (getattr_live h self o Hlive _ boxes Hboxes). simpl.
  apply check_solved_loop.
Qed.

(** The loop of [get_heuristic]: a sum that stops at the first addition
    that raises. *)
Lemma get_heuristic_loop bs acc :
  for_acc bs acc (λ heuristic box_position,
    targets ← getattr self_targets self;
    lift (pynum_add heuristic (GameState.manhattan_distance box_position targets))) h
  = (fold_left (λ (r : result pynum) box_position,
         heuristic ← r;
         pynum_add heuristic (GameState.manhattan_distance box_position targets))
       bs (Ok acc), h).
Proof using Hlive Htargets.
  revert acc. induction bs as [|b bs IH]; intros acc; simpl; [done|].
  unfold mbind at 1, M_bind at 1. unfold mbind at 1, M_bind at 1.
  rewrite (getattr_live h self o Hlive _ targets Htargets). simpl.
  destruct (pynum_add acc _) as [acc'|e]; [apply IH|].
  clear. induction bs as [|b bs IH]; [done|]. simpl. apply IH.
Qed.

Lemma get_heuristic_live :
  GameState.get_heuristic self h
  = (fold_left (λ (r : result pynum) box_position,
         heuristic ← r;
         pynum_add heuristic (GameState.manhattan_distance box_position targets))
       boxes (Ok (Int 0)), h).
Proof using Hlive Hboxes Htargets.
  unfold GameState.get_heuristic. bind_step.
  rewrite (getattr_live h self o Hlive _ boxes Hboxes). simpl.
  apply get_heuristic_loop.
Qed.

End Costs.

(** X9.  [check_solved] on a state with [boxes] and [targets]: it returns,
    without touching the store, whether every box position is among the
    target positions; with no boxes it returns true. *)
Theorem X9_check_solved_iff (h : store) (self : ref) (o : instance)
    (boxes targets : list pos) :
  h !! self = Some o →
  self_boxes o = Some boxes →
  self_targets o = Some targets →
  ∃ solved, GameState.check_solved self h = (Ok solved, h)
    ∧ (solved = true ↔ ∀ p, p ∈ boxes → p ∈ targets).
Proof.
  intros Hlive Hboxes Htargets. eexists.
  split; [by eapply check_solved_live|].
  rewrite forallb_forall. split.
  - intros H p Hp%list_elem_of_In. by apply existsb_pos_eqb, H.
  - intros H p Hp%list_elem_of_In. by apply existsb_pos_eqb, H.
Qed.

Lemma X9_check_solved_iff_witness :
  ∃ solved,
    GameState.check_solved 0 [pushable_state] = (Ok solved, [pushable_state])
    ∧ (solved = true ↔ ∀ p, p ∈ [(1, 2)] → p ∈ [(1, 3)]).
Proof.
  exact (X9_check_solved_iff [pushable_state] 0 pushable_state [(1, 2)] [(1, 3)]
           eq_refl eq_refl eq_refl).
Defined.

Lemma l1_nonneg (p q : pos) : 0 ≤ l1 p q.
Proof. unfold l1. lia. Qed.

Lemma l1_zero (p q : pos) : l1 p q = 0 ↔ p = q.
Proof.
  unfold l1. destruct p as [p1 p2], q as [q1 q2]; simpl. split.
  - intros H. f_equal; lia.
  - intros [= -> ->]. lia.
Qed.

(** The minimum loop of [manhattan_distance], started from a number. *)
Lemma min_distance_from (box : pos) (targets : list pos) (a : Z) :
  ∃ d, fold_left (λ min_distance target_position,
           pynum_min min_distance (Int (l1 box target_position)))
         targets (Int a) = Int d
       ∧ d ≤ a
       ∧ (∀ t, t ∈ targets → d ≤ l1 box t)
       ∧ (d = a ∨ ∃ t, t ∈ targets ∧ d = l1 box t).
Proof.
  revert a. induction targets as [|t targets IH]; intros a; simpl.
  { exists a. split; [done|]. split; [lia|]. split; [|by left].
    intros t Ht. by apply elem_of_nil in Ht. }
  unfold pynum_min at 2. simpl.
  destruct (l1 box t <? a)%Z eqn:Hlt.
  - apply Z.ltb_lt in Hlt.
    destruct (IH (l1 box t)) as (d & -> & Hle & Hall & Hatt).
    exists d. split; [done|]. split; [lia|]. split.
    + intros t' [->|Ht']%elem_of_cons; [lia|by apply Hall].
    + right. destruct Hatt as [->|(t' & Ht' & ->)].
      * exists t. split; [by left|done].
      * exists t'. split; [by right|done].
  - apply Z.ltb_ge in Hlt.
    destruct (IH a) as (d & -> & Hle & Hall & Hatt).
    exists d. split; [done|]. split; [lia|]. split.
    + intros t' [->|Ht']%elem_of_cons; [lia|by apply Hall].
    + destruct Hatt as [->|(t' & Ht' & ->)]; [by left|].
      right. exists t'. split; [by right|done].
Qed.

Lemma manhattan_distance_cases (box : pos) (targets : list pos) :
  match targets with
  | [] => GameState.manhattan_distance box targets = Inf
  | _ :: _ =>
      ∃ d, GameState.manhattan_distance box targets = Int d
           ∧ (∃ t, t ∈ targets ∧ d = l1 box t)
           ∧ (∀ t, t ∈ targets → d ≤ l1 box t)
  end.
Proof.
  destruct targets as [|t targets]; [done|].
  unfold GameState.manhattan_distance. simpl.
  change (pynum_min Inf (Int (Z.abs (box.1 - t.1) + Z.abs (box.2 - t.2))))
    with (Int (l1 box t)).
  destruct (min_distance_from box targets (l1 box t)) as (d & Hd & Hle & Hall & Hatt).
  exists d. split; [exact Hd|]. split.
  - destruct Hatt as [->|(t' & Ht' & ->)].
    + exists t. split; [by left|done].
    + exists t'. split; [by right|done].
  - intros t' [->|Ht']%elem_of_cons; [lia|by apply Hall].
Qed.

(** X10.  [manhattan_distance]: with no targets it returns [math.inf];
    with targets it returns the smallest of the distances
    [|row - row'| + |column - column'|] from the box to a target, which is
    the distance to one of the targets and is never negative. *)
Theorem X10_manhattan_distance_is_minimum (box : pos) (targets : list pos) :
  GameState.manhattan_distance box [] = Inf
  ∧ (targets ≠ [] →
     ∃ d, GameState.manhattan_distance box targets = Int d
          ∧ 0 ≤ d
          ∧ (∃ t, t ∈ targets ∧ d = l1 box t)
          ∧ (∀ t, t ∈ targets → d ≤ l1 box t)).
Proof.
  split; [done|]. intros Hne.
  pose proof (manhattan_distance_cases box targets) as H.
  destruct targets as [|t targets]; [done|].
  destruct H as (d & Hd & (t' & Ht' & ->) & Hall).
  exists (l1 box t'). split; [done|]. split; [apply l1_nonneg|]. eauto.
Qed.

Lemma X10_manhattan_distance_is_minimum_witness :
  GameState.manhattan_distance (1, 2) [] = Inf
  ∧ ∃ d, GameState.manhattan_distance (1, 2) [(4, 4); (1, 3); (0, 0)] = Int d
         ∧ 0 ≤ d
         ∧ (∃ t, t ∈ [(4, 4); (1, 3); (0, 0)] ∧ d = l1 (1, 2) t)
         ∧ (∀ t, t ∈ [(4, 4); (1, 3); (0, 0)] → d ≤ l1 (1, 2) t).
Proof.
  split; [reflexivity|].
  apply (X10_manhattan_distance_is_minimum (1, 2) [(4, 4); (1, 3); (0, 0)]).
  discriminate.
Defined.

Lemma manhattan_distance_zero (box : pos) (targets : list pos) :
  GameState.manhattan_distance box targets = Int 0 ↔ box ∈ targets.
Proof.
  pose proof (manhattan_distance_cases box targets) as H.
  destruct targets as [|t targets].
  { rewrite H. split; [done|]. by intros ?%elem_of_nil. }
  destruct H as (d & -> & (t' & Ht' & ->) & Hall). split.
  - intros [= H0]. apply l1_zero in H0 as ->. done.
  - intros Hin. f_equal. pose proof (Hall box Hin) as Hle.
    pose proof (l1_nonneg box t'). rewrite (proj2 (l1_zero box box) eq_refl) in Hle. lia.
Qed.

Lemma manhattan_distance_nonneg (box : pos) (targets : list pos) :
  GameState.manhattan_distance box targets = Inf
  ∨ ∃ d, GameState.manhattan_distance box targets = Int d ∧ 0 ≤ d.
Proof.
  pose proof (manhattan_distance_cases box targets) as H.
  destruct targets as [|t targets]; [by left|].
  destruct H as (d & -> & (t' & Ht' & ->) & Hall).
  right. eexists. split; [done|]. apply l1_nonneg.
Qed.

(** The sum of [get_heuristic], started from a number that is not
    negative: no addition raises, the sum only grows, and it stays where it
    started exactly when every box is on a target.  Without targets every
    distance is [math.inf], and the only int ever added to it is the
    starting number. *)
Lemma heuristic_sum (targets boxes : list pos) (a : Z) :
  0 ≤ a →
  (targets = [] → fits_float a = true) →
  ∃ total,
    fold_left (λ (r : result pynum) box_position,
        heuristic ← r;
        pynum_add heuristic (GameState.manhattan_distance box_position targets))
      boxes (Ok (Int a)) = Ok total
    ∧ (total = Inf ∨ ∃ z, total = Int z ∧ a ≤ z)
    ∧ (total = Int a ↔ ∀ p, p ∈ boxes → p ∈ targets)
    ∧ (boxes ≠ [] → targets = [] → total = Inf).
Proof.
  intros Ha Hfits. destruct targets as [|t targets].
  - destruct boxes as [|b boxes]; simpl.
    { exists (Int a). split; [done|]. split; [right; exists a; split; [done|lia]|].
      split; [|done]. split; [by intros _ p ?%elem_of_nil|done]. }
    rewrite Hfits by done. exists Inf.
    split.
    { clear. induction boxes as [|b' boxes IH]; [done|]. simpl. apply IH. }
    split; [by left|]. split; [|done].
    split; [done|]. intros H. assert (b ∈ []) as Hb by (apply H; by left).
    by apply elem_of_nil in Hb.
  - clear Hfits. revert a Ha. induction boxes as [|b boxes IH]; intros a Ha; simpl.
    { exists (Int a). split; [done|]. split; [right; exists a; split; [done|lia]|].
      split; [|done]. split; [by intros _ p ?%elem_of_nil|done]. }
    pose proof (manhattan_distance_cases b (t :: targets))
      as (d & Hd & (t' & _ & Hatt) & _).
    assert (0 ≤ d) as Hd0 by (rewrite Hatt; apply l1_nonneg).
    rewrite Hd. simpl.
    destruct (IH (a + d)) as (total & -> & Hgrow & Hiff & _); [lia|].
    exists total. split; [done|]. split; [|split; [|done]].
    + destruct Hgrow as [->|(z & -> & Hz)]; [by left|].
      right. exists z. split; [done|lia].
    + split.
      * intros Htotal.
        assert (d = 0) as ->.
        { destruct Hgrow as [Hg|(z & Hg & Hz)]; rewrite Hg in Htotal; [done|].
          simplify_eq. lia. }
        rewrite Z.add_0_r in *.
        intros p [->|Hp]%elem_of_cons.
        -- by apply manhattan_distance_zero.
        -- by apply Hiff.
      * intros H.
        assert (d = 0) as ->.
        { assert (b ∈ t :: targets) as Hb by (apply H; by left).
          apply manhattan_distance_zero in Hb. congruence. }
        rewrite Z.add_0_r in *. apply Hiff. intros p Hp. apply H. by right.
Qed.

(** What [get_heuristic] returns on a state with [boxes] and [targets]. *)
Lemma get_heuristic_facts (h : store) (self : ref) (o : instance)
    (boxes targets : list pos) :
  h !! self = Some o →
  self_boxes o = Some boxes →
  self_targets o = Some targets →
  ∃ v, GameState.get_heuristic self h = (Ok v, h)
    ∧ (v = Inf ∨ ∃ z, v = Int z ∧ 0 ≤ z)
    ∧ (v = Int 0 ↔ GameState.check_solved self h = (Ok true, h))
    ∧ (boxes ≠ [] → targets = [] → v = Inf).
Proof.
  intros Hlive Hboxes Htargets.
  rewrite (get_heuristic_live h self o boxes targets Hlive Hboxes Htargets).
  rewrite (check_solved_live h self o boxes targets Hlive Hboxes Htargets).
  destruct (heuristic_sum targets boxes 0) as (v & -> & Hgrow & Hiff & Hinf);
    [done..|].
  exists v. split; [done|]. split; [exact Hgrow|]. split; [|exact Hinf].
  rewrite Hiff. split.
  - intros H. do 2 f_equal. apply forallb_forall.
    intros p Hp%list_elem_of_In. by apply existsb_pos_eqb, H.
  - intros [= H]. rewrite forallb_forall in H.
    intros p Hp%list_elem_of_In. by apply existsb_pos_eqb, H.
Qed.

(** X11.  [get_heuristic] on a state with [boxes] and [targets] returns,
    without touching the store, [math.inf] or a number that is not
    negative; it returns 0 exactly when every box position is a target
    position, that is, when [check_solved] returns true; and it returns
    [math.inf] when there is a box and no target. *)
Theorem X11_heuristic_zero_iff_solved (h : store) (self : ref) (o : instance)
    (boxes targets : list pos) :
  h !! self = Some o →
  self_boxes o = Some boxes →
  self_targets o = Some targets →
  ∃ v, GameState.get_heuristic self h = (Ok v, h)
    ∧ (v = Inf ∨ ∃ z, v = Int z ∧ 0 ≤ z)
    ∧ (v = Int 0 ↔ GameState.check_solved self h = (Ok true, h))
    ∧ (boxes ≠ [] → targets = [] → v = Inf).
Proof. apply get_heuristic_facts. Qed.

Lemma X11_heuristic_zero_iff_solved_witness :
  ∃ v, GameState.get_heuristic 0 [pushable_state] = (Ok v, [pushable_state])
    ∧ (v = Inf ∨ ∃ z, v = Int z ∧ 0 ≤ z)
    ∧ (v = Int 0 ↔ GameState.check_solved 0 [pushable_state] = (Ok true, [pushable_state]))
    ∧ ([(1, 2)] ≠ [] → [(1, 3)] = [] → v = Inf).
Proof.
  exact (X11_heuristic_zero_iff_solved [pushable_state] 0 pushable_state
           [(1, 2)] [(1, 3)] eq_refl eq_refl eq_refl).
Defined.

(** [get_total_cost] is the current cost plus the heuristic. *)
Lemma get_total_cost_sum h self o boxes targets cost :
  h !! self = Some o →
  self_boxes o = Some boxes →
  self_targets o = Some targets →
  self_current_cost o = Some cost →
  ∃ v, GameState.get_heuristic self h = (Ok v, h)
    ∧ (v = Inf ∨ ∃ z, v = Int z ∧ 0 ≤ z)
    ∧ (GameState.check_solved self h = (Ok true, h) → v = Int 0)
    ∧ GameState.get_current_cost self h = (Ok cost, h)
    ∧ GameState.get_total_cost self h = (pynum_add (Int cost) v, h).
Proof.
  intros Hlive Hboxes Htargets Hcost.
  destruct (get_heuristic_facts h self o boxes targets Hlive Hboxes Htargets)
    as (v & Hv & Hnonneg & Hzero & _).
  exists v.
  assert (GameState.get_current_cost self h = (Ok cost, h)) as Hc
    by (by apply (getattr_live h self o Hlive)).
  split; [done|]. split; [done|]. split; [by intros ?%Hzero|]. split; [done|].
  unfold GameState.get_total_cost. unfold mbind, M_bind. by rewrite Hc, Hv.
Qed.

(** X12.  [get_total_cost] on a state with [boxes], [targets] and
    [current_cost] adds the current cost and the heuristic.  When it
    returns, the result is never below the current cost; on a solved state
    it returns the current cost, so that [astar] and [ucs] give a solved
    state the same key.  When the heuristic is [math.inf] the cost is
    converted to a float: the result is [math.inf] if the cost fits a
    float, and [OverflowError] is raised if it does not.  The store is
    untouched in every case. *)
Theorem X12_total_cost (h : store) (self : ref) (o : instance)
    (boxes targets : list pos) (cost : Z) :
  h !! self = Some o →
  self_boxes o = Some boxes →
  self_targets o = Some targets →
  self_current_cost o = Some cost →
  ∃ v,
    GameState.get_heuristic self h = (Ok v, h)
    ∧ GameState.get_current_cost self h = (Ok cost, h)
    ∧ GameState.get_total_cost self h = (pynum_add (Int cost) v, h)
    ∧ (∀ total, GameState.get_total_cost self h = (Ok total, h) →
                pynum_ltb total (Int cost) = false)
    ∧ (GameState.check_solved self h = (Ok true, h) →
       GameState.get_total_cost self h = (Ok (Int cost), h))
    ∧ (v = Inf →
       GameState.get_total_cost self h
       = (if fits_float cost then Ok Inf else Raise OverflowError, h)).
Proof.
  intros Hlive Hboxes Htargets Hcost.
  destruct (get_total_cost_sum h self o boxes targets cost)
    as (v & Hv & Hnonneg & Hzero & Hc & Ht); try done.
  exists v. split; [done|]. split; [done|]. split; [done|]. rewrite Ht. split; [|split].
  - intros total [= Htotal].
    destruct Hnonneg as [->|(z & -> & Hz)]; simpl in Htotal.
    + by destruct (fits_float cost); simplify_eq.
    + simplify_eq. simpl. apply Z.ltb_ge. lia.
  - intros ->%Hzero. simpl. by rewrite Z.add_0_r.
  - by intros ->.
Qed.

Lemma X12_total_cost_witness :
  ∃ v,
    GameState.get_heuristic 0 [state_of corridor (Some (1, 1)) [(1, 3)] [] false (2 ^ 1024)]
    = (Ok v, [state_of corridor (Some (1, 1)) [(1, 3)] [] false (2 ^ 1024)])
    ∧ v = Inf
    ∧ GameState.get_total_cost 0
        [state_of corridor (Some (1, 1)) [(1, 3)] [] false (2 ^ 1024)]
      = (Raise OverflowError,
         [state_of corridor (Some (1, 1)) [(1, 3)] [] false (2 ^ 1024)]).
Proof.
  destruct (X12_total_cost
              [state_of corridor (Some (1, 1)) [(1, 3)] [] false (2 ^ 1024)] 0
              (state_of corridor (Some (1, 1)) [(1, 3)] [] false (2 ^ 1024))
              [(1, 3)] [] (2 ^ 1024) eq_refl eq_refl eq_refl eq_refl)
    as (v & Hv & _ & _ & _ & _ & Hinf).
  exists v. split; [exact Hv|].
  assert (v = Inf) as Hv' by (vm_compute in Hv; congruence).
  split; [exact Hv'|]. exact (Hinf Hv').
Defined.

(** ** [move] and the store *)

(** X13.  [move] never changes an object that exists: whatever the state,
    the direction and the outcome, the store afterwards is the store
    before, followed by at most one new object; every reference reads what
    it read; and when [move] returns, it returns the state it was called
    on and nothing was allocated. *)
Theorem X13_move_keeps_objects (self : ref) (direction : string) (h : store) :
  ∃ allocated,
    (GameState.move self direction h).2 = h ++ allocated
    ∧ (length allocated ≤ 1)%nat
    ∧ (∀ r o, h !! r = Some o → (GameState.move self direction h).2 !! r = Some o)
    ∧ (∀ s, (GameState.move self direction h).1 = Ok s → s = self ∧ allocated = []).
Proof.
  destruct (move_cases self direction h) as [[e He]|[He|[m He]]]; rewrite He; simpl.
  - exists []. rewrite app_nil_r. split; [done|]. split; [simpl; lia|]. by split.
  - exists []. rewrite app_nil_r. split; [done|]. split; [simpl; lia|].
    split; [done|]. by intros s [= ->].
  - exists [set_map m blank]. split; [done|]. split; [simpl; lia|]. split; [|done].
    intros r o Hr. by apply lookup_app_l_Some.
Qed.

(** X19.  A state whose [player] is [None] (no player cell was found)
    cannot move: [move] raises [TypeError] for every direction, valid or
    not, before it looks at the grid, and the store is as it was. *)
Theorem X19_move_without_player (h : store) (self : ref) (direction : string) :
  h !! self ≫= self_player = Some None →
  GameState.move self direction h = (Raise TypeError, h).
Proof.
  intros Hp. unfold GameState.move. bind_step. unfold getattr. by rewrite Hp.
Qed.

Lemma X19_move_without_player_witness :
  [state_of [["#"; " "]] None [] [] true 0] !! 0%nat ≫= self_player = Some None
  ∧ GameState.move 0 "U" [state_of [["#"; " "]] None [] [] true 0]
    = (Raise TypeError, [state_of [["#"; " "]] None [] [] true 0]).
Proof.
  split; [reflexivity|].
  exact (X19_move_without_player [state_of [["#"; " "]] None [] [] true 0] 0 "U" eq_refl).
Defined.

(** X20.  A move that is not refused.  On a state with a grid, a player
    position and a cost, when the entered cell is neither wall nor box (or
    is a box with a cell behind it that is neither), [move] builds the new
    grid, allocates one object, stores the grid in it and raises
    [AttributeError] from the constructor: no state is returned, and the
    only trace is the half-built object at the end of the store. *)
Theorem X20_accepted_move_raises (h : store) (self : ref) (o : instance) (map : grid)
    (i j di dj cost : Z) (direction : string) (entered : ascii) :
  h !! self = Some o →
  self_map o = Some map →
  self_player o = Some (Some (i, j)) →
  self_current_cost o = Some cost →
  step_of direction = Some (di, dj) →
  GameState.cell map (i + di, j + dj) = Ok entered →
  entered ≠ "#" →
  (is_box_symbol entered = false →
   ∀ new_map, GameState.walk_map map i j (i + di, j + dj) = Ok new_map →
     GameState.move self direction h
     = (Raise AttributeError, h ++ [set_map new_map blank]))
  ∧ (is_box_symbol entered = true →
     ∀ behind new_map,
       GameState.cell map (i + di + di, j + dj + dj) = Ok behind →
       behind ≠ "#" → is_box_symbol behind = false →
       GameState.push_map map i j (i + di, j + dj) (i + di + di, j + dj + dj)
       = Ok new_map →
       GameState.move self direction h
       = (Raise AttributeError, h ++ [set_map new_map blank])).
Proof.
  intros Hlive Hmap Hplayer Hcost Hstep Hentered Hwall.
  rewrite (move_head h self o map i j Hlive Hmap Hplayer).
  rewrite (new_position_of_step h i j direction di dj Hstep). simpl.
  replace (i + di + (i + di - i)) with (i + di + di) by lia.
  replace (j + dj + (j + dj - j)) with (j + dj + dj) by lia.
  rewrite Hentered, (proj2 (Ascii.eqb_neq _ _) Hwall), Hcost. split.
  - intros -> new_map ->. done.
  - intros -> behind new_map -> Hb%Ascii.eqb_neq -> ->. by rewrite Hb.
Qed.

Lemma X20_accepted_move_raises_witness :
  (is_box_symbol "$" = false →
   ∀ new_map, GameState.walk_map pushable 1 1 (1 + 0, 1 + 1) = Ok new_map →
     GameState.move 0 "R" [pushable_state]
     = (Raise AttributeError, [pushable_state] ++ [set_map new_map blank]))
  ∧ (is_box_symbol "$" = true →
     ∀ behind new_map,
       GameState.cell pushable (1 + 0 + 0, 1 + 1 + 1) = Ok behind →
       behind ≠ "#" → is_box_symbol behind = false →
       GameState.push_map pushable 1 1 (1 + 0, 1 + 1) (1 + 0 + 0, 1 + 1 + 1)
       = Ok new_map →
       GameState.move 0 "R" [pushable_state]
       = (Raise AttributeError, [pushable_state] ++ [set_map new_map blank])).
Proof.
  apply (X20_accepted_move_raises [pushable_state] 0 pushable_state pushable
           1 1 0 1 0 "R" "$"); try reflexivity.
  discriminate.
Defined.

(** * Further properties of [modules/solver.py] *)

Lemma solve_is_search initial strategy :
  strategy ∈ search_strategies →
  ∃ mk class, (mk, class) ∈ loops
    ∧ ∀ fuel, Solver.solve (Solver.Solver initial strategy) fuel
              = Solver.search mk class initial fuel.
Proof.
  unfold search_strategies, loops. rewrite !elem_of_cons, elem_of_nil.
  intros [->|[->|[->|[->|[->|[]]]]]].
  - exists Solver.plain_item, Queue. split; [apply list_elem_of_In; simpl; tauto|done].
  - exists Solver.plain_item, LifoQueue. split; [apply list_elem_of_In; simpl; tauto|done].
  - exists Solver.astar_item, PriorityQueue.
    split; [apply list_elem_of_In; simpl; tauto|done].
  - exists Solver.ucs_item, PriorityQueue.
    split; [apply list_elem_of_In; simpl; tauto|done].
  - exists Solver.greedy_item, PriorityQueue.
    split; [apply list_elem_of_In; simpl; tauto|done].
Qed.

(** The direction loop gets through only when every move was refused. *)
Lemma directions_loop_refused mk current_state p directions c h c' h' :
  current_state ∈ Solver.visited c →
  for_acc directions c (λ (c : Solver.config) (direction : string),
    new_state ← GameState.move current_state direction;
    if bool_decide (new_state ∈ Solver.visited c) then mret c
    else
      it ← mk new_state (p ++ [direction]);
      f ← lift (put (Solver.config_frontier c) it);
      mret (Solver.Config f (Solver.visited c))) h = (Ok c', h') →
  c' = c ∧ h' = h
  ∧ Forall (λ d, GameState.move current_state d h = (Ok current_state, h)) directions.
Proof.
  intros Hin. induction directions as [|d ds IH]; simpl.
  { intros [= <- <-]. by repeat split. }
  unfold mbind at 1, M_bind at 1. unfold mbind at 1, M_bind at 1.
  destruct (move_cases current_state d h) as [[e He]|[He|[m He]]]; rewrite He;
    [done| |done].
  rewrite bool_decide_eq_true_2 by done.
  intros (-> & -> & Hds)%IH. repeat split; [done..|]. by constructor.
Qed.

(** What a finished search tells about the initial state. *)
Lemma search_outcome mk class initial fuel h solution h' :
  (mk, class) ∈ loops →
  Solver.search mk class initial fuel h = (Ok (Solver.Return solution), h') →
  h' = h
  ∧ match solution with
    | Some p => p = [] ∧ GameState.check_solved initial h = (Ok true, h)
    | None =>
        GameState.check_solved initial h = (Ok false, h)
        ∧ Forall (λ d, GameState.move initial d h = (Ok initial, h))
            ["U"; "D"; "L"; "R"]%string
    end.
Proof.
  intros Hl. unfold Solver.search.
  destruct (start_cases mk class initial h Hl) as [[e He]|(it & He & <- & Hpath)];
    unfold mbind at 1, M_bind at 1; rewrite He; [done|].
  destruct fuel as [|fuel]; [done|]. cbn [Solver.while].
  unfold mbind at 1, M_bind at 1. unfold Solver.iteration. simpl.
  bind_step. rewrite get_only. simpl.
  bind_step.
  pose proof (readonly_check_solved (item_state it) h) as Hro.
  destruct (GameState.check_solved (item_state it) h) as [[[]|e] h1] eqn:Hs;
    simpl in *; subst h1; [| |done].
  - intros [= <- <-]. by rewrite Hpath.
  - rewrite bool_decide_eq_false_2 by apply not_elem_of_empty.
    unfold mbind at 1, M_bind at 1. unfold Solver.expand.
    destruct (for_acc _ _ _ h) as [[c'|e] h1] eqn:Hloop; [|done].
    apply directions_loop_refused in Hloop as (-> & -> & Hall);
      [|simpl; by apply elem_of_union_l, elem_of_singleton].
    destruct fuel as [|fuel]; [done|]. simpl.
    by intros [= <- <-].
Qed.

(** X14.  The dispatch of [solve]: a strategy name outside the six known
    ones raises [Exception] before anything is looked at, and ['custom']
    returns the fixed path ['U', 'U'] whatever the initial state is; the
    store is untouched in both cases. *)
Theorem X14_solve_dispatch (self : Solver.t) (fuel : nat) (h : store) :
  (Solver.strategy self ∉ known_strategies →
   Solver.solve self fuel h = (Raise Exception, h))
  ∧ (Solver.strategy self = "custom"%string →
     Solver.solve self fuel h = (Ok (Solver.Return (Some ["U"; "U"]%string)), h)).
Proof.
  unfold Solver.solve, known_strategies. split.
  - intros Hs.
    repeat (destruct (String.eqb (Solver.strategy self) _) eqn:Heq;
            [apply String.eqb_eq in Heq; exfalso; apply Hs; rewrite Heq;
             apply list_elem_of_In; simpl; tauto|clear Heq]).
    done.
  - by intros ->.
Qed.

Lemma search_unfold mk class initial fuel h :
  Solver.search mk class initial fuel h
  = match Solver.start mk class initial h with
    | (Ok c, h') => Solver.while mk fuel c h'
    | (Raise e, h') => (Raise e, h')
    end.
Proof. done. Qed.

Lemma while_unfold mk fuel c h :
  Solver.while mk (S fuel) c h
  = match Solver.iteration mk c h with
    | (Ok (inl c'), h') => Solver.while mk fuel c' h'
    | (Ok (inr solution), h') => (Ok (Solver.Return solution), h')
    | (Raise e, h') => (Raise e, h')
    end.
Proof.
  cbn [Solver.while]. unfold mbind, M_bind.
  by destruct (Solver.iteration mk c h) as [[[|]|] ?].
Qed.

(** X15.  The five search loops stop after at most two rounds: with fuel
    for two rounds or more, [solve] never runs out of fuel, and its result
    and store are those of two rounds. *)
Theorem X15_solve_stops (self : Solver.t) (fuel : nat) (h : store) :
  (Solver.solve self (S (S fuel)) h).1 ≠ Ok Solver.OutOfFuel
  ∧ Solver.solve self (S (S fuel)) h = Solver.solve self 2 h.
Proof.
  assert (∀ mk class initial, (mk, class) ∈ loops →
    (Solver.search mk class initial (S (S fuel)) h).1 ≠ Ok Solver.OutOfFuel
    ∧ Solver.search mk class initial (S (S fuel)) h = Solver.search mk class initial 2 h)
    as Hsearch.
  { intros mk class initial Hl. split; [by apply search_two_rounds|].
    rewrite !search_unfold.
    destruct (start_cases mk class initial h Hl) as [[e He]|(it & He & _)];
      rewrite He; [done|].
    rewrite !while_unfold.
    destruct (iteration_only mk class it h) as [(e & h' & Hi)|[[Hi _]|Hi]];
      by rewrite Hi. }
  unfold Solver.solve, Solver.bfs, Solver.dfs, Solver.astar, Solver.ucs, Solver.greedy.
  repeat (destruct (String.eqb _ _);
          [apply Hsearch; unfold loops; apply list_elem_of_In; simpl; tauto|]).
  by destruct (String.eqb _ _).
Qed.

(** On a solved state with [boxes], [targets] and [current_cost] every
    strategy can build its first frontier tuple. *)
Lemma start_live mk class h initial o boxes targets cost :
  (mk, class) ∈ loops →
  h !! initial = Some o →
  self_boxes o = Some boxes →
  self_targets o = Some targets →
  self_current_cost o = Some cost →
  GameState.check_solved initial h = (Ok true, h) →
  ∃ it, Solver.start mk class initial h
        = (Ok (Solver.Config (Frontier class [it]) ∅), h)
        ∧ item_state it = initial ∧ item_path it = [].
Proof.
  intros Hl Hlive Hboxes Htargets Hcost Hsolved.
  destruct (start_cases mk class initial h Hl) as [[e He]|?]; [exfalso|done].
  revert He. unfold Solver.start.
  rewrite bind_readonly by (by eapply readonly_mk_item).
  assert (∃ it, mk initial [] h = (Ok it, h)) as [it ->];
    [|simpl; by rewrite put_first].
  destruct (get_total_cost_sum h initial o boxes targets cost)
    as (v & Hv & _ & Hzero & Hc & Ht); try done.
  rewrite (Hzero Hsolved) in *. simpl in Ht. rewrite Z.add_0_r in Ht.
  revert Hl. unfold loops. rewrite !elem_of_cons, elem_of_nil.
  intros [?|[?|[?|[?|[?|[]]]]]]; simplify_eq.
  - by eexists.
  - by eexists.
  - eexists. unfold Solver.astar_item, mbind, M_bind. by rewrite Ht.
  - eexists. unfold Solver.ucs_item, mbind, M_bind. by rewrite Hc.
  - eexists. unfold Solver.greedy_item, mbind, M_bind. by rewrite Hv.
Qed.

(** X16.  Started on a solved state (with [boxes], [targets] and
    [current_cost]), each of [bfs], [dfs], [astar], [ucs] and [greedy]
    returns the empty path in its first round and leaves the store as it
    was. *)
Theorem X16_solved_state_gives_empty_path (h : store) (initial : ref) (o : instance)
    (boxes targets : list pos) (cost : Z) (strategy : string) (fuel : nat) :
  h !! initial = Some o →
  self_boxes o = Some boxes →
  self_targets o = Some targets →
  self_current_cost o = Some cost →
  GameState.check_solved initial h = (Ok true, h) →
  strategy ∈ search_strategies →
  Solver.solve (Solver.Solver initial strategy) (S fuel) h
  = (Ok (Solver.Return (Some [])), h).
Proof.
  intros Hlive Hboxes Htargets Hcost Hsolved Hs.
  destruct (solve_is_search initial strategy Hs) as (mk & class & Hl & ->).
  rewrite search_unfold.
  destruct (start_live mk class h initial o boxes targets cost)
    as (it & -> & Hst & Hpath); try done.
  rewrite while_unfold.
  destruct (iteration_only mk class it h) as [(e & h' & Hi)|[[Hi _]|Hi]].
  - revert Hi. unfold Solver.iteration. simpl. bind_step. rewrite get_only. simpl.
    bind_step. by rewrite Hst, Hsolved.
  - by rewrite Hi, Hpath.
  - revert Hi. unfold Solver.iteration. simpl. bind_step. rewrite get_only. simpl.
    bind_step. by rewrite Hst, Hsolved.
Qed.

Lemma X16_solved_state_gives_empty_path_witness :
  GameState.check_solved 0 [box_on_target_state] = (Ok true, [box_on_target_state])
  ∧ "astar"%string ∈ search_strategies
  ∧ Solver.solve (Solver.Solver 0 "astar") 1 [box_on_target_state]
    = (Ok (Solver.Return (Some [])), [box_on_target_state]).
Proof.
  assert ("astar"%string ∈ search_strategies) as Hs
    by (apply list_elem_of_In; simpl; tauto).
  split; [reflexivity|]. split; [exact Hs|].
  exact (X16_solved_state_gives_empty_path [box_on_target_state] 0 box_on_target_state
           [(1, 2)] [(1, 2)] 0 "astar" 0 eq_refl eq_refl eq_refl eq_refl eq_refl Hs).
Defined.

(** X17.  What the five strategies can return.  When [solve] returns, the
    store is as it was.  A returned path is always the empty path, and the
    initial state is solved; [None] is returned only for an initial state
    that is not solved and refuses all four moves.  No strategy ever
    returns a path with a move in it. *)
Theorem X17_solve_results (initial : ref) (strategy : string) (fuel : nat)
    (h h' : store) (solution : option path) :
  strategy ∈ search_strategies →
  Solver.solve (Solver.Solver initial strategy) fuel h
  = (Ok (Solver.Return solution), h') →
  h' = h
  ∧ match solution with
    | Some p => p = [] ∧ GameState.check_solved initial h = (Ok true, h)
    | None =>
        GameState.check_solved initial h = (Ok false, h)
        ∧ Forall (λ d, GameState.move initial d h = (Ok initial, h))
            ["U"; "D"; "L"; "R"]%string
    end.
Proof.
  intros Hs. destruct (solve_is_search initial strategy Hs) as (mk & class & Hl & ->).
  by apply search_outcome.
Qed.

Lemma X17_solve_results_witness :
  "dfs"%string ∈ search_strategies
  ∧ Solver.solve (Solver.Solver 0 "dfs") 2 [wedged_state]
    = (Ok (Solver.Return None), [wedged_state])
  ∧ GameState.check_solved 0 [wedged_state] = (Ok false, [wedged_state])
  ∧ Forall (λ d, GameState.move 0 d [wedged_state] = (Ok 0%nat, [wedged_state]))
      ["U"; "D"; "L"; "R"]%string.
Proof.
  assert ("dfs"%string ∈ search_strategies) as Hs
    by (apply list_elem_of_In; simpl; tauto).
  split; [exact Hs|]. split; [reflexivity|].
  exact (proj2 (X17_solve_results 0 "dfs" 2 [wedged_state] [wedged_state] None
                  Hs eq_refl)).
Defined.

Lemma pynum_eqb_refl k : pynum_eqb k k = true.
Proof. destruct k; simpl; [apply Z.eqb_refl|done]. Qed.

(** X18.  Ties on a [PriorityQueue] frontier.  A frontier tuple is
    [(key, state, path)], and [GameState] has no ordering: putting a tuple
    on a queue that holds one tuple with the same key and another state
    object raises [TypeError].  With different keys the put succeeds and
    the smaller key comes first. *)
Theorem X18_priority_queue_ties (k1 k2 : pynum) (s1 s2 : ref) (p1 p2 : path) :
  (k1 = k2 → s1 ≠ s2 →
   put (Frontier PriorityQueue [Keyed k1 s1 p1]) (Keyed k2 s2 p2) = Raise TypeError)
  ∧ (pynum_eqb k2 k1 = false →
     put (Frontier PriorityQueue [Keyed k1 s1 p1]) (Keyed k2 s2 p2)
     = Ok (Frontier PriorityQueue
             (if pynum_ltb k2 k1 then [Keyed k2 s2 p2; Keyed k1 s1 p1]
              else [Keyed k1 s1 p1; Keyed k2 s2 p2]))).
Proof.
  unfold put, heapq.heappush, heapq.siftdown. simpl. split.
  - intros -> Hne. rewrite pynum_eqb_refl. unfold states_then_paths_lt, state_eqb.
    by rewrite (proj2 (Nat.eqb_neq s2 s1)) by done.
  - intros ->. simpl. by destruct (pynum_ltb k2 k1).
Qed.

(** * Moves off the edge of the grid *)

Lemma norm_index_minus_one len :
  norm_index len (-1) = norm_index len (Z.of_nat len - 1).
Proof.
  unfold norm_index. destruct len as [|len]; [done|].
  replace (0 <=? -1)%Z with false by done. simpl andb.
  rewrite (proj2 (Z.leb_le _ _)), (proj2 (Z.ltb_lt (-1) 0)) by lia.
  rewrite (proj2 (Z.leb_le 0 _)), (proj2 (Z.ltb_lt _ _)) by lia.
  done.
Qed.

Lemma locate_last_row map j :
  locate map (-1, j) = locate map (Z.of_nat (length map) - 1, j).
Proof. unfold locate. simpl. by rewrite norm_index_minus_one. Qed.

Lemma locate_last_column map i row :
  getitem map i = Ok row →
  locate map (i, -1) = locate map (i, Z.of_nat (length row) - 1).
Proof.
  intros (n & Hn & Hrow)%getitem_Ok. unfold locate. simpl.
  rewrite Hn. simpl. rewrite Hrow. simpl. by rewrite norm_index_minus_one.
Qed.

(** A step into a cell that is neither wall nor box, when it is another
    cell than the player's: the player is written there, the old cell is
    cleared, and the constructor is called on the new grid. *)
Lemma move_onto_free h self o map i j direction new_position left entered :
  h !! self = Some o →
  self_map o = Some map →
  self_player o = Some (Some (i, j)) →
  GameState.new_position_of direction i j h = (Ok new_position, h) →
  GameState.cell map (i, j) = Ok left →
  GameState.cell map new_position = Ok entered →
  entered ≠ "#" →
  is_box_symbol entered = false →
  locate map (i, j) ≠ locate map new_position →
  ∃ new_map,
    GameState.move self direction h
    = (Raise AttributeError,
       match self_current_cost o with
       | Some _ => h ++ [set_map new_map blank]
       | None => h
       end)
    ∧ GameState.walk_map map i j new_position = Ok new_map
    ∧ (∀ q, locate new_map q = locate map q)
    ∧ GameState.cell new_map new_position
      = Ok (if Ascii.eqb entered "." then "+" else "@")
    ∧ GameState.cell new_map (i, j) = Ok (if Ascii.eqb left "+" then "." else " ").
Proof.
  intros Hlive Hmap Hplayer Hnp Hleft Hentered Hwall Hbox Hne.
  pose proof Hleft as (a & Ha & Hsa)%cell_Ok.
  pose proof Hentered as (b & Hb & Hsb)%cell_Ok.
  rewrite Ha, Hb in Hne.
  eexists. split; [|split; [by eapply walk_map_written|]].
  - rewrite (move_head h self o map i j Hlive Hmap Hplayer), Hnp. simpl.
    rewrite Hentered, (proj2 (Ascii.eqb_neq _ _) Hwall), Hbox.
    rewrite (walk_map_written map i j new_position left entered a b) by done.
    by destruct (self_current_cost o).
  - simpl. destruct (Ascii.eqb left "+"), (Ascii.eqb entered ".");
      (split; [intros; by located|]); split; read_writes.
Qed.

(** A step onto a box whose own next cell is a wall or a box. *)
Lemma move_onto_stuck_box h self o map i j direction new_position entered behind :
  h !! self = Some o →
  self_map o = Some map →
  self_player o = Some (Some (i, j)) →
  GameState.new_position_of direction i j h = (Ok new_position, h) →
  GameState.cell map new_position = Ok entered →
  is_box_symbol entered = true →
  GameState.cell map (new_position.1 + (new_position.1 - i),
                      new_position.2 + (new_position.2 - j)) = Ok behind →
  behind = "#" ∨ is_box_symbol behind = true →
  GameState.move self direction h = (Ok self, h).
Proof.
  intros Hlive Hmap Hplayer Hnp Hentered Hbox Hbehind Hstuck.
  rewrite (move_head h self o map i j Hlive Hmap Hplayer), Hnp. simpl.
  rewrite Hentered, (box_symbol_not_wall entered Hbox), Hbox, Hbehind.
  destruct Hstuck as [-> | ->]; [done|]. by rewrite orb_true_r.
Qed.

(** C10.  [move] checks no bounds.  From row 0, ['U'] computes row [-1],
    which the cell predicates read as the last row of the grid: they
    answer for the symbol that stands there.  So does [move]: a wall there
    refuses the move; a box there is pushed towards row [-2] and stays when
    that cell is a wall or a box; any other symbol lets the player through,
    and the new grid has the player in the last row.  From column 0, ['L']
    does the same with column [-1] and the last column of the row.  From
    the last row ['D'], and from the last column ['R'], index one past the
    grid and [move] raises [IndexError], the store untouched. *)
Theorem C10_no_bounds_check (h : store) (self : ref) (o : instance) (map : grid)
    (i j : Z) :
  h !! self = Some o →
  self_map o = Some map →
  self_player o = Some (Some (i, j)) →
  let last_row := Z.of_nat (length map) - 1 in
  (i = 0 →
     GameState.new_position_of "U" i j h = (Ok (-1, j), h)
     ∧ getitem map (-1) = from_option Ok (Raise IndexError) (last map)
     ∧ GameState.is_wall self (-1, j) h = GameState.is_wall self (last_row, j) h
     ∧ GameState.is_box self (-1, j) h = GameState.is_box self (last_row, j) h
     ∧ GameState.is_target self (-1, j) h = GameState.is_target self (last_row, j) h
     ∧ GameState.is_empty self (-1, j) h = GameState.is_empty self (last_row, j) h
     ∧ (GameState.cell map (last_row, j) = Ok "#" →
        GameState.move self "U" h = (Ok self, h))
     ∧ (∀ c, GameState.cell map (last_row, j) = Ok c →
          GameState.is_wall self (-1, j) h = (Ok (Ascii.eqb c "#"), h)
          ∧ GameState.is_box self (-1, j) h = (Ok (is_box_symbol c), h)
          ∧ GameState.is_target self (-1, j) h = (Ok (is_target_symbol c), h)
          ∧ GameState.is_empty self (-1, j) h = (Ok (Ascii.eqb c " "), h)
          ∧ (is_box_symbol c = true →
             ∀ behind, GameState.cell map (-2, j) = Ok behind →
               behind = "#" ∨ is_box_symbol behind = true →
               GameState.move self "U" h = (Ok self, h))
          ∧ (c ≠ "#" → is_box_symbol c = false →
             ∀ left, GameState.cell map (0, j) = Ok left →
               locate map (0, j) ≠ locate map (-1, j) →
               ∃ new_map,
                 GameState.move self "U" h
                 = (Raise AttributeError,
                    match self_current_cost o with
                    | Some _ => h ++ [set_map new_map blank]
                    | None => h
                    end)
                 ∧ GameState.walk_map map 0 j (-1, j) = Ok new_map
                 ∧ GameState.cell new_map (last_row, j)
                   = Ok (if Ascii.eqb c "." then "+" else "@")
                 ∧ GameState.cell new_map (0, j)
                   = Ok (if Ascii.eqb left "+" then "." else " "))))
  ∧ (j = 0 → ∀ row, getitem map i = Ok row →
     let last_column := Z.of_nat (length row) - 1 in
     GameState.new_position_of "L" i j h = (Ok (i, -1), h)
     ∧ getitem row (-1) = from_option Ok (Raise IndexError) (last row)
     ∧ GameState.is_wall self (i, -1) h = GameState.is_wall self (i, last_column) h
     ∧ GameState.is_box self (i, -1) h = GameState.is_box self (i, last_column) h
     ∧ GameState.is_target self (i, -1) h = GameState.is_target self (i, last_column) h
     ∧ GameState.is_empty self (i, -1) h = GameState.is_empty self (i, last_column) h
     ∧ (∀ c, GameState.cell map (i, last_column) = Ok c →
          GameState.is_wall self (i, -1) h = (Ok (Ascii.eqb c "#"), h)
          ∧ GameState.is_box self (i, -1) h = (Ok (is_box_symbol c), h)
          ∧ GameState.is_target self (i, -1) h = (Ok (is_target_symbol c), h)
          ∧ GameState.is_empty self (i, -1) h = (Ok (Ascii.eqb c " "), h)
          ∧ (c = "#" → GameState.move self "L" h = (Ok self, h))
          ∧ (is_box_symbol c = true →
             ∀ behind, GameState.cell map (i, -2) = Ok behind →
               behind = "#" ∨ is_box_symbol behind = true →
               GameState.move self "L" h = (Ok self, h))
          ∧ (c ≠ "#" → is_box_symbol c = false →
             ∀ left, GameState.cell map (i, 0) = Ok left →
               locate map (i, 0) ≠ locate map (i, -1) →
               ∃ new_map,
                 GameState.move self "L" h
                 = (Raise AttributeError,
                    match self_current_cost o with
                    | Some _ => h ++ [set_map new_map blank]
                    | None => h
                    end)
                 ∧ GameState.walk_map map i 0 (i, -1) = Ok new_map
                 ∧ GameState.cell new_map (i, last_column)
                   = Ok (if Ascii.eqb c "." then "+" else "@")
                 ∧ GameState.cell new_map (i, 0)
                   = Ok (if Ascii.eqb left "+" then "." else " "))))
  ∧ (i = last_row → GameState.move self "D" h = (Raise IndexError, h))
  ∧ (∀ row, getitem map i = Ok row → j = Z.of_nat (length row) - 1 →
     GameState.move self "R" h = (Raise IndexError, h)).
Proof.
  intros Hlive Hmap Hplayer last_row.
  assert (∀ (m : grid) p q, locate m p = locate m q →
    GameState.cell m p = GameState.cell m q) as Hcell.
  { intros m p q Hpq. by rewrite !cell_locate, Hpq. }
  assert (∀ p q, GameState.cell map p = GameState.cell map q →
    GameState.is_wall self p h = GameState.is_wall self q h
    ∧ GameState.is_box self p h = GameState.is_box self q h
    ∧ GameState.is_target self p h = GameState.is_target self q h
    ∧ GameState.is_empty self p h = GameState.is_empty self q h) as Hpred.
  { intros p q Hpq.
    by rewrite !(is_wall_live h self o map Hlive Hmap),
      !(is_box_live h self o map Hlive Hmap),
      !(is_target_live h self o map _ Hlive Hmap),
      !(is_empty_live h self o map _ Hlive Hmap), Hpq. }
  assert (∀ p c, GameState.cell map p = Ok c →
    GameState.is_wall self p h = (Ok (Ascii.eqb c "#"), h)
    ∧ GameState.is_box self p h = (Ok (is_box_symbol c), h)
    ∧ GameState.is_target self p h = (Ok (is_target_symbol c), h)
    ∧ GameState.is_empty self p h = (Ok (Ascii.eqb c " "), h)) as Hvalue.
  { intros p c Hc.
    by rewrite (is_wall_live h self o map Hlive Hmap),
      (is_box_live h self o map Hlive Hmap),
      (is_target_live h self o map _ Hlive Hmap),
      (is_empty_live h self o map _ Hlive Hmap), Hc. }
  split; [|split; [|split]].
  - intros ->.
    pose proof (Hcell map _ _ (locate_last_row map j)) as Hrow. fold last_row in Hrow.
    split; [done|]. split; [apply getitem_last|].
    destruct (Hpred (-1, j) (last_row, j) Hrow) as (Hw & Hb & Ht & He).
    do 4 (split; [assumption|]). split.
    { intros Hwall. rewrite (move_head h self o map 0 j Hlive Hmap Hplayer).
      replace (GameState.new_position_of "U" 0 j h) with (Ok (-1, j), h) by done.
      simpl. by rewrite Hrow, Hwall. }
    intros c Hc. rewrite <- Hrow in Hc.
    destruct (Hvalue (-1, j) c Hc) as (Hw' & Hb' & Ht' & He').
    do 4 (split; [assumption|]). split.
    + intros Hbox behind Hbehind Hstuck.
      apply (move_onto_stuck_box h self o map 0 j "U" (-1, j) c behind); try done.
      simpl. by replace (j + (j - j)) with j by lia.
    + intros Hwall Hbox left Hleft Hne.
      destruct (move_onto_free h self o map 0 j "U" (-1, j) left c)
        as (new_map & Hmove & Hwalk & Hshape & Hnew & Hold); try done.
      exists new_map. do 2 (split; [done|]). split; [|done].
      rewrite <- Hnew. apply Hcell. rewrite !Hshape. symmetry. apply locate_last_row.
  - intros -> row Hr last_column.
    pose proof (Hcell map _ _ (locate_last_column map i row Hr)) as Hcol.
    fold last_column in Hcol.
    split; [done|]. split; [apply getitem_last|].
    destruct (Hpred (i, -1) (i, last_column) Hcol) as (Hw & Hb & Ht & He).
    do 4 (split; [assumption|]).
    intros c Hc. rewrite <- Hcol in Hc.
    destruct (Hvalue (i, -1) c Hc) as (Hw' & Hb' & Ht' & He').
    do 4 (split; [assumption|]). split; [|split].
    + intros ->. rewrite (move_head h self o map i 0 Hlive Hmap Hplayer).
      replace (GameState.new_position_of "L" i 0 h) with (Ok (i, -1), h) by done.
      simpl. by rewrite Hc.
    + intros Hbox behind Hbehind Hstuck.
      apply (move_onto_stuck_box h self o map i 0 "L" (i, -1) c behind); try done.
      simpl. by replace (i + (i - i)) with i by lia.
    + intros Hwall Hbox left Hleft Hne.
      destruct (move_onto_free h self o map i 0 "L" (i, -1) left c)
        as (new_map & Hmove & Hwalk & Hshape & Hnew & Hold); try done.
      exists new_map. do 2 (split; [done|]). split; [|done].
      rewrite <- Hnew. apply Hcell. rewrite !Hshape. symmetry.
      by apply locate_last_column.
  - intros ->. rewrite (move_head h self o map _ j Hlive Hmap Hplayer). simpl.
    unfold GameState.cell. simpl.
    replace (last_row + 1) with (Z.of_nat (length map)) by (unfold last_row; lia).
    by rewrite getitem_past_end.
  - intros row Hr ->. rewrite (move_head h self o map i _ Hlive Hmap Hplayer). simpl.
    unfold GameState.cell. simpl. rewrite Hr. simpl.
    replace (Z.of_nat (length row) - 1 + 1) with (Z.of_nat (length row)) by lia.
    by rewrite getitem_past_end.
Qed.

Lemma C10_no_bounds_check_witness :
  [open_board_state] !! 0%nat = Some open_board_state
  ∧ self_map open_board_state = Some open_board
  ∧ self_player open_board_state = Some (Some (0, 0))
  ∧ GameState.is_empty 0 (-1, 0) [open_board_state] = (Ok true, [open_board_state])
  ∧ GameState.is_wall 0 (0, -1) [open_board_state] = (Ok false, [open_board_state])
  ∧ GameState.move 0 "U" [open_board_state]
    = (Raise AttributeError,
       [open_board_state; set_map [ [" "; " "]; ["@"; "#"] ] blank])
  ∧ GameState.move 0 "L" [open_board_state]
    = (Raise AttributeError,
       [open_board_state; set_map [ [" "; "@"]; [" "; "#"] ] blank])
  ∧ GameState.move 0 "D" [single_cell_state] = (Raise IndexError, [single_cell_state])
  ∧ GameState.move 0 "R" [single_cell_state] = (Raise IndexError, [single_cell_state]).
Proof.
  split; [reflexivity|]. split; [reflexivity|]. split; [reflexivity|].
  destruct (C10_no_bounds_check [open_board_state] 0 open_board_state open_board
              0 0 eq_refl eq_refl eq_refl) as (HU & HL & _ & _).
  destruct (HU eq_refl) as (_ & _ & _ & _ & _ & _ & _ & HUc).
  destruct (HUc " " eq_refl) as (_ & _ & _ & HUempty & _ & HUfree).
  destruct (HL eq_refl ["@"; " "] eq_refl) as (_ & _ & _ & _ & _ & _ & HLc).
  destruct (HLc " " eq_refl) as (HLwall & _ & _ & _ & _ & _ & HLfree).
  split; [exact HUempty|]. split; [exact HLwall|].
  split.
  { destruct (HUfree ltac:(discriminate) eq_refl "@" eq_refl
                ltac:(vm_compute; discriminate)) as (m & Hmove & Hwalk & _).
    vm_compute in Hwalk. injection Hwalk as <-. exact Hmove. }
  split.
  { destruct (HLfree ltac:(discriminate) eq_refl "@" eq_refl
                ltac:(vm_compute; discriminate)) as (m & Hmove & Hwalk & _).
    vm_compute in Hwalk. injection Hwalk as <-. exact Hmove. }
  destruct (C10_no_bounds_check [single_cell_state] 0 single_cell_state single_cell
              0 0 eq_refl eq_refl eq_refl) as (_ & _ & HD & HR).
  split; [exact (HD eq_refl)|exact (HR ["@"] eq_refl eq_refl)].
Defined.

(** * The cost of a state and the length of its path *)

(** ** The constructor *)

Lemma keeps_costs_refl h : keeps_costs h h.
Proof. by intros r v. Qed.

Lemma keeps_costs_trans h1 h2 h3 :
  keeps_costs h1 h2 → keeps_costs h2 h3 → keeps_costs h1 h3.
Proof. intros H12 H23 r v Hr. by apply H23, H12. Qed.

Lemma keeps_costs_frontier h h' f :
  keeps_costs h h' →
  Forall (cost_is_path_length h) f → Forall (cost_is_path_length h') f.
Proof. intros Hk Hf. eapply Forall_impl; [exact Hf|]. intros it. apply Hk. Qed.

(** [GameState] itself never returns (C1). *)
Lemma new_stores_cost : stores_cost GameState.new.
Proof. intros map current_cost h s h'. by rewrite new_raises. Qed.

Lemma readonly_for_return {A B} (xs : list A) (body : A → M (option B)) :
  (∀ a, readonly (body a)) → readonly (for_return xs body).
Proof.
  intros Hb. induction xs as [|x xs IH]; simpl; [apply readonly_ret|].
  apply readonly_bind; [apply Hb|]. intros [b|]; [apply readonly_ret|apply IH].
Qed.

Lemma readonly_find_player self : readonly (GameState.find_player self).
Proof.
  unfold GameState.find_player.
  apply readonly_bind; [apply readonly_getattr|intros height].
  apply readonly_for_return. intros i.
  apply readonly_bind; [apply readonly_getattr|intros width].
  apply readonly_for_return. intros j.
  apply readonly_bind; [apply readonly_read_cell|intros; apply readonly_ret].
Qed.

Lemma readonly_find_boxes self : readonly (GameState.find_boxes self).
Proof. unfold GameState.find_boxes, GameState.read_cell. readonly. Qed.

Lemma readonly_find_targets self : readonly (GameState.find_targets self).
Proof. unfold GameState.find_targets, GameState.read_cell. readonly. Qed.

Lemma bind_setattr {B} upd self (k : unit → M B) h :
  (setattr upd self ≫= k) h = k tt (alter upd self h).
Proof. done. Qed.

(** With the sizes assigned first, [__init__] runs to its last statement
    and writes to no object but [self]. *)
Lemma __init__sizes_first_writes self map current_cost h h' :
  __init__sizes_first self map current_cost h = (Ok tt, h') →
  ∃ upd, h' = alter upd self h ∧ ∀ o, self_current_cost (upd o) = Some current_cost.
Proof.
  unfold __init__sizes_first.
  rewrite bind_setattr.
  bind_step. destruct (getattr self_map self _).1 as [m|e]; [|done].
  rewrite bind_setattr.
  bind_step. destruct (getattr self_map self _).1 as [m'|e]; [|done].
  bind_step. destruct (lift _ _).1 as [row0|e]; [|done].
  rewrite bind_setattr.
  rewrite bind_readonly by apply readonly_find_player.
  destruct (GameState.find_player self _).1 as [player|e]; [|done].
  rewrite bind_setattr.
  rewrite bind_readonly by apply readonly_find_boxes.
  destruct (GameState.find_boxes self _).1 as [boxes|e]; [|done].
  rewrite bind_setattr.
  rewrite bind_readonly by apply readonly_find_targets.
  destruct (GameState.find_targets self _).1 as [targets|e]; [|done].
  rewrite bind_setattr.
  bind_step. destruct (GameState.check_solved self _).1 as [is_solved|e]; [|done].
  rewrite bind_setattr.
  unfold setattr. intros [= <-].
  rewrite !list_alter_alter_eq. eexists. split; [done|]. done.
Qed.

Lemma new_sizes_first_stores_cost : stores_cost new_sizes_first.
Proof.
  intros map current_cost h s h'. unfold new_sizes_first.
  unfold mbind at 1, M_bind at 1, alloc. unfold mbind, M_bind.
  destruct (__init__sizes_first _ _ _ _) as [[[]|e] h1] eqn:Hinit; [|done].
  intros [= <- <-].
  apply __init__sizes_first_writes in Hinit as (upd & -> & Hupd).
  split.
  - unfold GameState.get_current_cost, getattr.
    rewrite list_lookup_alter_eq, list_lookup_middle by done. simpl. by rewrite Hupd.
  - intros r v. unfold GameState.get_current_cost, getattr.
    destruct (h !! r) as [o|] eqn:Hr; [|done].
    pose proof (lookup_lt_Some _ _ _ Hr) as Hlt.
    rewrite list_lookup_alter_ne, lookup_app_l, Hr by lia. simpl.
    by destruct (self_current_cost o).
Qed.

(** ** [move] *)

(** A state that [move] returns is the one it was called on, or the new
    object, which was given the cost of that one plus 1. *)
Lemma move_by_steps_cost construct :
  stores_cost construct → steps_cost (GameState.move_by construct).
Proof.
  intros Hconstruct self direction h s h'.
  assert (GameState.move_by construct self direction h = (Ok self, h) →
          GameState.move_by construct self direction h = (Ok s, h') →
          keeps_costs h h'
          ∧ (s = self
             ∨ ∃ cost, (GameState.get_current_cost self h).1 = Ok cost
                       ∧ (GameState.get_current_cost s h').1 = Ok (cost + 1)))
    as Hself.
  { intros ->. intros [= <- <-]. split; [apply keeps_costs_refl|by left]. }
  assert (∀ map cost, (getattr self_current_cost self h).1 = Ok cost →
          GameState.move_by construct self direction h = construct map (cost + 1) h →
          GameState.move_by construct self direction h = (Ok s, h') →
          keeps_costs h h'
          ∧ (s = self
             ∨ ∃ cost, (GameState.get_current_cost self h).1 = Ok cost
                       ∧ (GameState.get_current_cost s h').1 = Ok (cost + 1)))
    as Hnew.
  { intros map cost Hcost ->. intros [Hs Hk]%Hconstruct. split; [done|].
    right. by exists cost. }
  assert (∀ e, GameState.move_by construct self direction h = (Raise e, h) →
          GameState.move_by construct self direction h = (Ok s, h') →
          keeps_costs h h'
          ∧ (s = self
             ∨ ∃ cost, (GameState.get_current_cost self h).1 = Ok cost
                       ∧ (GameState.get_current_cost s h').1 = Ok (cost + 1)))
    as Hraise.
  { by intros e ->. }
  unfold GameState.move_by in *.
  revert Hself Hnew Hraise.
  bind_step. destruct (getattr self_player self h).1 as [player|e]; [|eauto].
  bind_step. destruct (GameState.unpack player h).1 as [[i j]|e]; [|eauto].
  simpl.
  bind_step. destruct (GameState.new_position_of direction i j h).1 as [np|e]; [|eauto].
  bind_step. destruct (GameState.is_wall self np h).1 as [[]|e]; simpl; [eauto| |eauto].
  bind_step. destruct (GameState.is_box self np h).1 as [[]|e]; [| |eauto].
  - bind_step.
    destruct (GameState.not_wall_and_not_box self _ h).1 as [[]|e]; [|eauto|eauto].
    bind_step. destruct (getattr self_map self h).1 as [map|e]; [|eauto].
    bind_step. destruct (lift _ h).1 as [new_map|e]; [|eauto].
    bind_step. destruct (getattr self_current_cost self h).1 as [cost|e] eqn:Hcost;
      [|eauto].
    intros _ Hnew _. by apply (Hnew new_map cost).
  - bind_step. destruct (getattr self_map self h).1 as [map|e]; [|eauto].
    bind_step. destruct (lift _ h).1 as [new_map|e]; [|eauto].
    bind_step. destruct (getattr self_current_cost self h).1 as [cost|e] eqn:Hcost;
      [|eauto].
    intros _ Hnew _. by apply (Hnew new_map cost).
Qed.

(** ** The search loops *)

(** Each strategy builds its tuple around the state and the path it is
    given, and leaves the store alone. *)
Lemma mk_item_tuple mk class state p h it h' :
  (mk, class) ∈ loops →
  mk state p h = (Ok it, h') →
  h' = h ∧ item_state it = state ∧ item_path it = p.
Proof.
  unfold loops. rewrite !elem_of_cons, elem_of_nil.
  intros [?|[?|[?|[?|[?|[]]]]]]; simplify_eq.
  - by intros [= <- <-].
  - by intros [= <- <-].
  - unfold Solver.astar_item. bind_step.
    destruct (GameState.get_total_cost state h).1; [|done]. by intros [= <- <-].
  - unfold Solver.ucs_item. bind_step.
    destruct (GameState.get_current_cost state h).1; [|done]. by intros [= <- <-].
  - unfold Solver.greedy_item. bind_step.
    destruct (GameState.get_heuristic state h).1; [|done]. by intros [= <- <-].
Qed.

Section CostKept.

Variables (step : ref → string → M ref) (mk : ref → path → M item)
  (class : queue_class).
Hypothesis Hstep : steps_cost step.
Hypothesis Hloop : (mk, class) ∈ loops.

(** The direction loop on a state that is in [visited] and has the length
    of its path as cost: a successor that is put on the frontier costs one
    more and has the path one longer. *)
Lemma directions_loop_cost current_state p directions c h c' h' :
  current_state ∈ Solver.visited c →
  (GameState.get_current_cost current_state h).1 = Ok (Z.of_nat (length p)) →
  Forall (cost_is_path_length h) (items (Solver.config_frontier c)) →
  for_acc directions c (λ (c : Solver.config) (direction : string),
    new_state ← step current_state direction;
    if bool_decide (new_state ∈ Solver.visited c) then mret c
    else
      it ← mk new_state (p ++ [direction]);
      f ← lift (put (Solver.config_frontier c) it);
      mret (Solver.Config f (Solver.visited c))) h = (Ok c', h') →
  keeps_costs h h'
  ∧ Forall (cost_is_path_length h') (items (Solver.config_frontier c')).
Proof.
  revert c h.
  induction directions as [|d ds IH]; intros c h Hin Hcost Hc; simpl.
  { intros [= <- <-]. split; [apply keeps_costs_refl|done]. }
  unfold mbind at 1, M_bind at 1. unfold mbind at 1, M_bind at 1.
  destruct (step current_state d h) as [[s|e] h0] eqn:Hs; [|done].
  destruct (Hstep _ _ _ _ _ Hs) as [Hk Hcase].
  case_bool_decide as Hvisited.
  - unfold mret at 1, M_ret at 1.
    intros [Hk' Hc']%IH; [|done|by apply Hk|by eapply keeps_costs_frontier].
    split; [by eapply keeps_costs_trans|done].
  - unfold mbind at 1, M_bind at 1.
    destruct (mk s (p ++ [d]) h0) as [[it|e] h1] eqn:Hmk; [|done].
    destruct (mk_item_tuple _ _ _ _ _ _ _ Hloop Hmk) as (-> & Hstate & Hpath).
    unfold mbind at 1, M_bind at 1, lift.
    destruct (put (Solver.config_frontier c) it) as [f|e] eqn:Hput; [|done].
    unfold mret at 1, M_ret at 1.
    intros [Hk' Hc']%IH; [split; [by eapply keeps_costs_trans|done]|done|by apply Hk|].
    simpl. eapply put_kept; [| |exact Hput].
    + by eapply keeps_costs_frontier.
    + destruct Hcase as [->|(cost & Hself & Hnew)]; [done|].
      unfold cost_is_path_length. rewrite Hstate, Hpath, Hnew.
      rewrite Hcost in Hself. simplify_eq.
      rewrite length_app. simpl. f_equal. lia.
Qed.

Lemma iteration_by_cost c h r h' :
  Forall (cost_is_path_length h) (items (Solver.config_frontier c)) →
  Solver.iteration_by step mk c h = (Ok r, h') →
  keeps_costs h h'
  ∧ match r with
    | inl c' => Forall (cost_is_path_length h') (items (Solver.config_frontier c'))
    | inr (Some p) =>
        h' = h
        ∧ ∃ it f, get (Solver.config_frontier c) = Ok (it, f)
                  ∧ item_path it = p ∧ cost_is_path_length h it
                  ∧ (GameState.check_solved (item_state it) h).1 = Ok true
    | inr None => True
    end.
Proof.
  intros Hc. unfold Solver.iteration_by.
  destruct (empty _). { intros [= <- <-]. split; [apply keeps_costs_refl|done]. }
  bind_step. simpl.
  destruct (get (Solver.config_frontier c)) as [[it f]|] eqn:Hget; [|done].
  destruct (get_kept _ _ _ _ Hc Hget) as [Hit Hf]. simpl.
  bind_step. destruct (GameState.check_solved (item_state it) h).1 as [[]|] eqn:Hs;
    [| |done].
  - intros [= <- <-]. split; [apply keeps_costs_refl|]. split; [done|].
    by exists it, f.
  - case_bool_decide.
    { intros [= <- <-]. split; [apply keeps_costs_refl|done]. }
    unfold mbind, M_bind.
    destruct (Solver.expand_by _ _ _ _ _ _) as [[c1|e] h1] eqn:He; [|done].
    intros [= <- <-].
    apply directions_loop_cost in He; [done| |exact Hit|done].
    simpl. by apply elem_of_union_l, elem_of_singleton.
Qed.

Lemma rounds_by_cost n c h c' h' :
  Forall (cost_is_path_length h) (items (Solver.config_frontier c)) →
  Solver.rounds_by step mk n c h = (Ok (Some c'), h') →
  keeps_costs h h'
  ∧ Forall (cost_is_path_length h') (items (Solver.config_frontier c')).
Proof.
  revert c h.
  induction n as [|n IH]; intros c h Hc; simpl.
  { intros [= <- <-]. split; [apply keeps_costs_refl|done]. }
  unfold mbind, M_bind.
  destruct (Solver.iteration_by step mk c h) as [[[c1|solution]|e] h1] eqn:Hi;
    [|done..].
  destruct (iteration_by_cost c h _ h1 Hc Hi) as [Hk Hc1].
  intros [Hk' Hc']%IH; [|done]. split; [by eapply keeps_costs_trans|done].
Qed.

(** A returned path comes out of some round: it is the path of the tuple
    that round popped, whose state is solved and costs the length of the
    path. *)
Lemma while_by_cost fuel c h p h' :
  Forall (cost_is_path_length h) (items (Solver.config_frontier c)) →
  Solver.while_by step mk fuel c h = (Ok (Solver.Return (Some p)), h') →
  ∃ n c' it f,
    Solver.rounds_by step mk n c h = (Ok (Some c'), h')
    ∧ get (Solver.config_frontier c') = Ok (it, f)
    ∧ item_path it = p
    ∧ (GameState.check_solved (item_state it) h').1 = Ok true
    ∧ cost_is_path_length h' it.
Proof.
  revert c h.
  induction fuel as [|fuel IH]; intros c h Hc; simpl; [done|].
  unfold mbind at 1, M_bind at 1.
  destruct (Solver.iteration_by step mk c h) as [[[c1|solution]|e] h1] eqn:Hi;
    [| |done].
  - destruct (iteration_by_cost c h _ h1 Hc Hi) as [Hk Hc1].
    intros (n & c' & it & f & Hn & Hrest)%IH; [|done].
    exists (S n), c', it, f. split; [|done].
    simpl. unfold mbind, M_bind. by rewrite Hi.
  - destruct (iteration_by_cost c h _ h1 Hc Hi) as [Hk Hsol].
    intros [= -> <-]. destruct Hsol as (-> & it & f & Hget & Hp & Hit & Hs).
    by exists 0%nat, c, it, f.
Qed.

Lemma search_by_cost initial h0 :
  (GameState.get_current_cost initial h0).1 = Ok 0 →
  (∀ n c h,
     (Solver.start mk class initial ≫= Solver.rounds_by step mk n) h0
     = (Ok (Some c), h) →
     Forall (cost_is_path_length h) (items (Solver.config_frontier c)))
  ∧ (∀ fuel p h,
     Solver.search_by step mk class initial fuel h0
     = (Ok (Solver.Return (Some p)), h) →
     ∃ n c it f,
       (Solver.start mk class initial ≫= Solver.rounds_by step mk n) h0
       = (Ok (Some c), h)
       ∧ get (Solver.config_frontier c) = Ok (it, f)
       ∧ item_path it = p
       ∧ (GameState.check_solved (item_state it) h).1 = Ok true
       ∧ cost_is_path_length h it).
Proof.
  intros Hcost. unfold Solver.search_by.
  destruct (start_cases mk class initial h0 Hloop) as [[e He]|(it & He & Hst & Hpath)].
  { split; intros *; unfold mbind, M_bind; by rewrite He. }
  assert (Forall (cost_is_path_length h0) [it]) as Hit.
  { constructor; [|constructor]. unfold cost_is_path_length. by rewrite Hst, Hpath. }
  split.
  - intros n c h. unfold mbind at 1, M_bind at 1. rewrite He.
    by intros [_ Hc]%rounds_by_cost.
  - intros fuel p h. unfold mbind at 1, M_bind at 1. rewrite He.
    intros (n & c & it' & f & Hn & Hrest)%while_by_cost; [|done].
    exists n, c, it', f. split; [|done].
    unfold mbind, M_bind. by rewrite He.
Qed.

End CostKept.

(** C8.  [move] gives a successor the cost of its state plus 1, and the
    direction loop gives it the path of that state with one direction
    more.  So for every constructor that stores the cost it is given, in
    each of the five search loops, started on an initial state of current
    cost 0: every tuple on the frontier after any number of rounds carries
    a path as long as the current cost of its state; and a path that a
    search returns is the path of a tuple popped from the frontier whose
    state is solved and has that path's length as current cost.
    [GameState] is such a constructor, and with it these are the loops of
    [Solver]. *)
Theorem C8_cost_is_path_length (construct : grid → Z → M ref)
    (mk : ref → path → M item) (class : queue_class) (initial : ref) (h0 : store) :
  stores_cost construct →
  (mk, class) ∈ loops →
  (GameState.get_current_cost initial h0).1 = Ok 0 →
  (∀ n c h,
     (Solver.start mk class initial
        ≫= Solver.rounds_by (GameState.move_by construct) mk n) h0
     = (Ok (Some c), h) →
     Forall (cost_is_path_length h) (items (Solver.config_frontier c)))
  ∧ (∀ fuel p h,
     Solver.search_by (GameState.move_by construct) mk class initial fuel h0
     = (Ok (Solver.Return (Some p)), h) →
     ∃ n c it f,
       (Solver.start mk class initial
          ≫= Solver.rounds_by (GameState.move_by construct) mk n) h0
       = (Ok (Some c), h)
       ∧ get (Solver.config_frontier c) = Ok (it, f)
       ∧ item_path it = p
       ∧ (GameState.check_solved (item_state it) h).1 = Ok true
       ∧ cost_is_path_length h it)
  ∧ stores_cost GameState.new
  ∧ GameState.move_by GameState.new = GameState.move
  ∧ Solver.rounds_by GameState.move mk = Solver.rounds mk
  ∧ Solver.search_by GameState.move mk = Solver.search mk
  ∧ (∀ n c h,
     (Solver.start mk class initial ≫= Solver.rounds mk n) h0 = (Ok (Some c), h) →
     Forall (cost_is_path_length h) (items (Solver.config_frontier c)))
  ∧ (∀ fuel p h,
     Solver.search mk class initial fuel h0 = (Ok (Solver.Return (Some p)), h) →
     ∃ n c it f,
       (Solver.start mk class initial ≫= Solver.rounds mk n) h0 = (Ok (Some c), h)
       ∧ get (Solver.config_frontier c) = Ok (it, f)
       ∧ item_path it = p
       ∧ (GameState.check_solved (item_state it) h).1 = Ok true
       ∧ cost_is_path_length h it).
Proof.
  intros Hconstruct Hl Hcost.
  destruct (search_by_cost (GameState.move_by construct) mk class
    (move_by_steps_cost construct Hconstruct) Hl initial h0 Hcost) as [Hrounds Hsearch].
  split; [exact Hrounds|]. split; [exact Hsearch|].
  split; [exact new_stores_cost|].
  split; [reflexivity|]. split; [reflexivity|]. split; [reflexivity|].
  exact (search_by_cost (GameState.move_by GameState.new) mk class
    (move_by_steps_cost GameState.new new_stores_cost) Hl initial h0 Hcost).
Qed.

Lemma C8_cost_is_path_length_witness :
  stores_cost new_sizes_first
  ∧ (Solver.plain_item, Queue) ∈ loops
  ∧ (GameState.get_current_cost 0 [pushable_state]).1 = Ok 0
  ∧ Solver.search_by (GameState.move_by new_sizes_first) Solver.plain_item Queue 0 2
      [pushable_state]
    = (Ok (Solver.Return (Some ["R"%string])), [pushable_state; pushed_state])
  ∧ ∃ n c it f,
      (Solver.start Solver.plain_item Queue 0
         ≫= Solver.rounds_by (GameState.move_by new_sizes_first) Solver.plain_item n)
        [pushable_state]
      = (Ok (Some c), [pushable_state; pushed_state])
      ∧ get (Solver.config_frontier c) = Ok (it, f)
      ∧ item_path it = ["R"%string]
      ∧ (GameState.check_solved (item_state it) [pushable_state; pushed_state]).1
        = Ok true
      ∧ cost_is_path_length [pushable_state; pushed_state] it.
Proof.
  assert ((Solver.plain_item, Queue) ∈ loops) as Hl by (unfold loops; left).
  split; [exact new_sizes_first_stores_cost|].
  split; [exact Hl|]. split; [reflexivity|]. split; [reflexivity|].
  apply (proj1 (proj2 (C8_cost_is_path_length new_sizes_first Solver.plain_item Queue
                  0 [pushable_state] new_sizes_first_stores_cost Hl eq_refl))
           2%nat ["R"%string] [pushable_state; pushed_state]).
  reflexivity.
Defined.
